(** Shallow embedding of the guarded-buffer test helpers of
    [internal/asm/f64/asm_test.go] and of the reference cross-check of
    [lapack/testlapack/dlasr.go] (gonum), with proofs of the properties
    stated in the specification. *)

From Stdlib Require Import ZArith Lia List Bool QArith Qcanon Qcabs.
Import ListNotations.

(** Go panics are modelled by [None]. *)
Notation "'let?' x ':=' a 'in' b" :=
  (match a with Some x => b | None => None end)
  (at level 200, x name, a at level 100, b at level 200).

(** * IEEE doubles

    A float64 is a finite value, one of the two infinities or NaN.
    Finite values are exact rationals: rounding and overflow are not
    modelled, and there is a single zero. *)
Module Float64.

Inductive F : Type :=
| Fin (q : Qc)
| PInf
| NInf
| NaN.

Definition qeqb (p q : Qc) : bool := if Qc_eq_dec p q then true else false.
Definition qleb (p q : Qc) : bool := Qle_bool (this p) (this q).
Definition qltb (p q : Qc) : bool := negb (qleb q p).

(** Go's [==] on float64: NaN is equal to nothing. *)
Definition feq (a b : F) : bool :=
  match a, b with
  | Fin p, Fin q => qeqb p q
  | PInf, PInf => true
  | NInf, NInf => true
  | _, _ => false
  end.

Definition isNaN (a : F) : bool :=
  match a with NaN => true | _ => false end.

(** [<=] on float64: false as soon as one side is NaN. *)
Definition fle (a b : F) : bool :=
  match a, b with
  | NaN, _ | _, NaN => false
  | Fin p, Fin q => qleb p q
  | NInf, _ => true
  | _, PInf => true
  | _, _ => false
  end.

Definition flt (a b : F) : bool := fle a b && negb (feq a b).

Definition fabs (a : F) : F :=
  match a with
  | Fin p => Fin (Qcabs p)
  | PInf | NInf => PInf
  | NaN => NaN
  end.

Definition fsub (a b : F) : F :=
  match a, b with
  | NaN, _ | _, NaN => NaN
  | Fin p, Fin q => Fin (p - q)%Qc
  | PInf, PInf | NInf, NInf => NaN
  | PInf, _ => PInf
  | NInf, _ => NInf
  | Fin _, PInf => NInf
  | Fin _, NInf => PInf
  end.

Definition fmul (a b : F) : F :=
  match a, b with
  | NaN, _ | _, NaN => NaN
  | Fin p, Fin q => Fin (p * q)%Qc
  | Fin p, PInf | PInf, Fin p =>
      if qeqb p 0 then NaN else if qltb 0 p then PInf else NInf
  | Fin p, NInf | NInf, Fin p =>
      if qeqb p 0 then NaN else if qltb 0 p then NInf else PInf
  | PInf, PInf | NInf, NInf => PInf
  | PInf, NInf | NInf, PInf => NInf
  end.

Definition fdiv (a b : F) : F :=
  match a, b with
  | NaN, _ | _, NaN => NaN
  | Fin p, Fin q =>
      if qeqb q 0
      then (if qeqb p 0 then NaN else if qltb 0 p then PInf else NInf)
      else Fin (p / q)%Qc
  | Fin _, PInf | Fin _, NInf => Fin 0
  | PInf, PInf | PInf, NInf | NInf, PInf | NInf, NInf => NaN
  | PInf, Fin q => if qltb q 0 then NInf else PInf
  | NInf, Fin q => if qltb q 0 then PInf else NInf
  end.

(** Go's [math.Max]. *)
Definition fmax (x y : F) : F :=
  match x, y with
  | PInf, _ | _, PInf => PInf
  | NaN, _ | _, NaN => NaN
  | _, _ => if flt y x then x else y
  end.

Definition fzero : F := Fin 0.

End Float64.
Import Float64.

(** * gonum/floats/scalar and gonum/floats *)
Module Scalar.

(** Modelled from the spec: [scalar.Same] of gonum/floats/scalar (not under
    src/); "same if both are NaN, or both are the identical value". *)
Definition Same (a b : F) : bool := feq a b || (isNaN a && isNaN b).

(** Modelled from the spec: [scalar.EqualWithinAbs], the absolute half of
    "numerically equal within absolute-or-relative tolerance". *)
Definition EqualWithinAbs (a b tol : F) : bool :=
  feq a b || fle (fabs (fsub a b)) tol.

Definition minNormalFloat64 : F := Fin (Q2Qc (1 # Pos.pow 2 1022)).

(** Modelled from the spec: [scalar.EqualWithinRel], the relative half of
    "numerically equal within absolute-or-relative tolerance". *)
Definition EqualWithinRel (a b tol : F) : bool :=
  if feq a b then true
  else
    let delta := fabs (fsub a b) in
    if fle delta minNormalFloat64
    then fle delta (fmul tol minNormalFloat64)
    else fle (fdiv delta (fmax (fabs a) (fabs b))) tol.

(** Modelled from the spec: [scalar.EqualWithinAbsOrRel]. *)
Definition EqualWithinAbsOrRel (a b absTol relTol : F) : bool :=
  EqualWithinAbs a b absTol || EqualWithinRel a b relTol.

(** Modelled from the spec: [floats.EqualApprox], elementwise
    [EqualWithinAbsOrRel] of two slices of the same length. *)
Definition EqualApprox (s1 s2 : list F) (tol : F) : bool :=
  if Nat.eqb (length s1) (length s2)
  then forallb (fun ab => EqualWithinAbsOrRel (fst ab) (snd ab) tol tol)
               (combine s1 s2)
  else false.

End Scalar.
Import Scalar.

(** * Go slices and integers *)
Module GoSlice.

Definition Zlen {A} (l : list A) : Z := Z.of_nat (length l).

(** [make([]T, n)]: panics for a negative length. *)
Definition make {A} (zero : A) (n : Z) : option (list A) :=
  if (n <? 0)%Z then None else Some (repeat zero (Z.to_nat n)).

Fixpoint upd {A} (l : list A) (i : nat) (v : A) : list A :=
  match l, i with
  | [], _ => []
  | _ :: t, O => v :: t
  | h :: t, S i' => h :: upd t i' v
  end.

(** [s[i] = v]: panics out of range. *)
Definition setZ {A} (l : list A) (i : Z) (v : A) : option (list A) :=
  if (0 <=? i)%Z && (i <? Zlen l)%Z then Some (upd l (Z.to_nat i) v) else None.

(** [s[i]]: panics out of range. *)
Definition getZ {A} (l : list A) (i : Z) : option A :=
  if (0 <=? i)%Z then nth_error l (Z.to_nat i) else None.

(** [s[lo:hi]] on a slice whose capacity is its length. *)
Definition sliceZ {A} (l : list A) (lo hi : Z) : option (list A) :=
  if (0 <=? lo)%Z && (lo <=? hi)%Z && (hi <=? Zlen l)%Z
  then Some (firstn (Z.to_nat (hi - lo)) (skipn (Z.to_nat lo) l))
  else None.

(** [copy(dst, src)]: copies [min(len(dst), len(src))] elements. *)
Definition go_copy {A} (dst src : list A) : list A :=
  let k := Nat.min (length dst) (length src) in
  firstn k src ++ skipn k dst.

(** A slice value: a window [lo, hi) of a shared backing array. *)
Record slice := mkSlice { sarr : list F; slo : Z; shi : Z }.

Definition view (s : slice) : list F :=
  firstn (Z.to_nat (shi s - slo s)) (skipn (Z.to_nat (slo s)) (sarr s)).

(** The state after writing the first [p] elements of [T] into [Z0]. *)
Definition prefix {A} (T Z0 : list A) (p : nat) : list A := firstn p T ++ skipn p Z0.

End GoSlice.
Import GoSlice.

(** * internal/asm/f64/asm_test.go *)
Module AsmTest.

Open Scope Z_scope.

(** [if inc < 0 { inc = -inc }] *)
Definition absInc (inc : Z) : Z := if inc <? 0 then - inc else inc.

(** [for i, d := range data { v[i*inc] = d }], with [v = whole[guard:guard+vlen]]. *)
Fixpoint write_strided (whole : list F) (guard vlen inc : Z) (data : list F) (i : Z)
  : option (list F) :=
  match data with
  | [] => Some whole
  | d :: rest =>
      if (0 <=? i * inc) && (i * inc <? vlen)
      then let? w := setZ whole (guard + i * inc) d in
           write_strided w guard vlen inc rest (i + 1)
      else None
  end.

(** [newGuardedVector(data, inc) (v, frontGuard, backGuard)]: the three
    results are windows of the same backing array [whole]. *)
Definition newGuardedVector (data : list F) (inc : Z) : option (slice * slice * slice) :=
  let inc := absInc inc in
  let guard := 2 * inc in
  let size := (Zlen data - 1) * inc + 1 in
  let? whole := make fzero (size + 2 * guard) in
  let wl := Zlen whole in
  (* v = whole[guard : len(whole)-guard] *)
  if (0 <=? guard) && (guard <=? wl - guard) && (wl - guard <=? wl) then
    let whole := map (fun _ => NaN) whole in
    let? whole := write_strided whole guard (wl - 2 * guard) inc data 0 in
    Some (mkSlice whole guard (wl - guard), mkSlice whole 0 guard, mkSlice whole (wl - guard) wl)
  else None.

(** [allNaN(x)] *)
Definition allNaN (x : list F) : bool := forallb isNaN x.

Fixpoint equalStrided_loop (ref x : list F) (inc i : Z) : option bool :=
  match ref with
  | [] => Some true
  | v :: rest =>
      let? xi := getZ x (i * inc) in
      if Same xi v then equalStrided_loop rest x inc (i + 1) else Some false
  end.

(** [equalStrided(ref, x, inc)] *)
Definition equalStrided (ref x : list F) (inc : Z) : option bool :=
  equalStrided_loop ref x (absInc inc) 0.

Fixpoint nonStridedWrite_loop (x : list F) (inc i : Z) : option bool :=
  match x with
  | [] => Some false
  | v :: rest =>
      if inc =? 0 then None (* integer divide by zero *)
      else if negb (Z.rem i inc =? 0) && negb (isNaN v) then Some true
      else nonStridedWrite_loop rest inc (i + 1)
  end.

(** [nonStridedWrite(x, inc)] *)
Definition nonStridedWrite (x : list F) (inc : Z) : option bool :=
  nonStridedWrite_loop x (absInc inc) 0.

Fixpoint guardVector_loop (k : nat) (i : Z) (g : list F) (gdVal : F) : option (list F) :=
  match k with
  | O => Some g
  | S k' =>
      let? g := setZ g i gdVal in
      let? g := setZ g (Zlen g - 1 - i) gdVal in
      guardVector_loop k' (i + 1) g gdVal
  end.

(** [guardVector(vec, gdVal, gdLn)] *)
Definition guardVector (vec : list F) (gdVal : F) (gdLn : Z) : option (list F) :=
  let? guarded := make fzero (Zlen vec + gdLn * 2) in
  (* copy(guarded[gdLn:], vec) *)
  if (0 <=? gdLn) && (gdLn <=? Zlen guarded) then
    let guarded := firstn (Z.to_nat gdLn) guarded
                   ++ go_copy (skipn (Z.to_nat gdLn) guarded) vec in
    guardVector_loop (Z.to_nat gdLn) 0 guarded gdVal
  else None.

Fixpoint isValidGuard_loop (k : nat) (i : Z) (vec : list F) (gdVal : F) : option bool :=
  match k with
  | O => Some true
  | S k' =>
      let? a := getZ vec i in
      if negb (Same a gdVal) then Some false
      else let? b := getZ vec (Zlen vec - 1 - i) in
           if negb (Same b gdVal) then Some false
           else isValidGuard_loop k' (i + 1) vec gdVal
  end.

(** [isValidGuard(vec, gdVal, gdLn)] *)
Definition isValidGuard (vec : list F) (gdVal : F) (gdLn : Z) : option bool :=
  isValidGuard_loop (Z.to_nat gdLn) 0 vec gdVal.

Fixpoint guardInc_loop (g : list F) (gdLen inc : Z) (vec : list F) (i : Z)
  : option (list F) :=
  match vec with
  | [] => Some g
  | v :: rest =>
      let? g := setZ g (gdLen + i * inc) v in
      guardInc_loop g gdLen inc rest (i + 1)
  end.

(** [guardIncVector(vec, gdVal, inc, gdLen)] *)
Definition guardIncVector (vec : list F) (gdVal : F) (inc gdLen : Z) : option (list F) :=
  let inc := absInc inc in
  let inrLen := Zlen vec * inc in
  let? guarded := make fzero (inrLen + gdLen * 2) in
  let guarded := map (fun _ => gdVal) guarded in
  guardInc_loop guarded gdLen inc vec 0.

(** One [t.Errorf] call of [checkValidIncGuard]: the reported offset and
    the slice printed as context. *)
Inductive guardMsg : Type :=
| FrontGuard (off : Z) (ctx : list F)
| BackGuard (off : Z) (ctx : list F)
| InternalGuard (off : Z) (ctx : list F).

(** The [switch] on offset [i] of [vec]. *)
Definition checkOffset (vec : list F) (gdVal : F) (inc gdLen srcLn i : Z) (vi : F)
  : option (list guardMsg) :=
  if Same vi gdVal then Some []
  else if inc =? 0 then None (* integer divide by zero *)
  else if (Z.rem (i - gdLen) inc =? 0) && (Z.quot (i - gdLen) inc <? Zlen vec) then Some []
  else if i <? gdLen then
    let? c := sliceZ vec 0 gdLen in Some (FrontGuard i c :: nil)
  else if gdLen + srcLn <? i then
    let? c := sliceZ vec (gdLen + srcLn) (Zlen vec) in
    Some (BackGuard (i - gdLen - srcLn) c :: nil)
  else
    let? c := sliceZ vec gdLen (gdLen + srcLn) in Some (InternalGuard (i - gdLen) c :: nil).

Fixpoint checkValidIncGuard_loop (vec : list F) (gdVal : F) (inc gdLen srcLn : Z)
    (xs : list F) (i : Z) : option (list guardMsg) :=
  match xs with
  | [] => Some []
  | vi :: rest =>
      let? m := checkOffset vec gdVal inc gdLen srcLn i vi in
      let? ms := checkValidIncGuard_loop vec gdVal inc gdLen srcLn rest (i + 1) in
      Some (m ++ ms)
  end.

(** [checkValidIncGuard(t, vec, gdVal, inc, gdLen)]: the list of
    [t.Errorf] reports, in order. *)
Definition checkValidIncGuard (vec : list F) (gdVal : F) (inc gdLen : Z)
  : option (list guardMsg) :=
  checkValidIncGuard_loop vec gdVal inc gdLen (Zlen vec - 2 * gdLen) vec 0.

(** [sameApprox(a, b, tol)] *)
Definition sameApprox (a b tol : F) : bool :=
  Same a b || EqualWithinAbsOrRel a b tol tol.

(** [incSet] and [incToSet]. *)
Record incSet := mkIncSet { isx : Z; isy : Z }.
Record incToSet := mkIncToSet { itdst : Z; itx : Z; ity : Z }.

Definition zeroIncSet : incSet := mkIncSet 0 0.
Definition zeroIncToSet : incToSet := mkIncToSet 0 0 0.

(** [newIncSet(inc...)] *)
Definition newIncSet (inc : list Z) : list incSet :=
  let n := length inc in
  let is0 := repeat zeroIncSet (n * n) in
  fold_left (fun is x =>
    fold_left (fun is y =>
      upd is (x * n + y) (mkIncSet (nth x inc 0) (nth y inc 0)))
      (seq 0 n) is)
    (seq 0 n) is0.

(** [newIncToSet(inc...)]; [dst] is the value ranged over. *)
Definition newIncToSet (inc : list Z) : list incToSet :=
  let n := length inc in
  let is0 := repeat zeroIncToSet (n * n * n) in
  fold_left (fun is i =>
    let dst := nth i inc 0 in
    fold_left (fun is x =>
      fold_left (fun is y =>
        upd is (i * n * n + x * n + y) (mkIncToSet dst (nth x inc 0) (nth y inc 0)))
        (seq 0 n) is)
      (seq 0 n) is)
    (seq 0 n) is0.

(** The pairs in lexicographic order. *)
Definition incPairs (inc : list Z) : list incSet :=
  flat_map (fun a => map (fun b => mkIncSet a b) inc) inc.

(** The triples in lexicographic order. *)
Definition incTriples (inc : list Z) : list incToSet :=
  flat_map (fun a => flat_map (fun b => map (fun c => mkIncToSet a b c) inc) inc) inc.




End AsmTest.

(** * lapack/testlapack/dlasr.go *)
Module DlasrTestModel.

Open Scope Qc_scope.

Inductive Side : Type := Left | Right.
(** [lapack.Pivot]; [Variable] is a Rocq keyword. *)
Inductive Pivot : Type := Variable_ | Top | Bottom.
Inductive Direct : Type := Forward | Backward.

Definition side_eqb (a b : Side) : bool :=
  match a, b with Left, Left | Right, Right => true | _, _ => false end.
Definition direct_eqb (a b : Direct) : bool :=
  match a, b with Forward, Forward | Backward, Backward => true | _, _ => false end.

(** [blas64.General], with finite entries. *)
Record General := mkGeneral { Rows : nat; Cols : nat; Stride : nat; Data : list Qc }.

Definition withData (g : General) (d : list Qc) : General :=
  mkGeneral (Rows g) (Cols g) (Stride g) d.

Fixpoint qsum (f : nat -> Qc) (n : nat) : Qc :=
  match n with
  | O => 0
  | S n' => qsum f n' + f n'
  end.

Definition gemm_entry (alpha : Qc) (A B : General) (i j : nat) : Qc :=
  alpha * qsum (fun l => nth (i * Stride A + l)%nat (Data A) 0
                         * nth (l * Stride B + j)%nat (Data B) 0) (Cols A).

(** Modelled from the spec: [blas64.Gemm(blas.NoTrans, blas.NoTrans, alpha,
    a, b, beta, c)] of gonum/blas/blas64 (not under src/), "computes
    C = alpha*A*B + beta*C given row-major dense matrices with explicit
    row/column counts and stride"; the entries of [c] outside its
    [Rows x Cols] window are left alone. *)
Definition Gemm (alpha : Qc) (A B : General) (beta : Qc) (C : General) : General :=
  withData C
    (map (fun idx =>
            let i := (idx / Stride C)%nat in
            let j := (idx mod Stride C)%nat in
            if (i <? Rows C)%nat && (j <? Cols C)%nat
            then gemm_entry alpha A B i j + beta * nth idx (Data C) 0
            else nth idx (Data C) 0)
         (seq 0 (length (Data C)))).

(** [for i := 0; i < n; i++ { d[i*stride+i] = 1 }] *)
Definition diag_loop (d : list Qc) (stride n : nat) : list Qc :=
  fold_left (fun d i => upd d (i * stride + i)%nat 1) (seq 0 n) d.

(** The entries set by the [switch pivot] for rotation [k]. *)
Definition set_pivot (pivot : Pivot) (pSize k : nat) (ck sk : Qc) (d : list Qc) : list Qc :=
  match pivot with
  | Variable_ =>
      let d := upd d (k * pSize + k)%nat ck in
      let d := upd d (k * pSize + k + 1)%nat sk in
      let d := upd d ((k + 1) * pSize + k)%nat (- sk) in
      upd d ((k + 1) * pSize + k + 1)%nat ck
  | Top =>
      let d := upd d 0%nat ck in
      let d := upd d (k + 1)%nat sk in
      let d := upd d ((k + 1) * pSize)%nat (- sk) in
      upd d ((k + 1) * pSize + k + 1)%nat ck
  | Bottom =>
      let d := upd d ((pSize - 1 - k) * pSize + pSize - k - 1)%nat ck in
      let d := upd d ((pSize - 1 - k) * pSize + pSize - 1)%nat sk in
      let d := upd d ((pSize - 1) * pSize + pSize - 1 - k)%nat (- sk) in
      upd d ((pSize - 1) * pSize + pSize - 1)%nat ck
  end.

(** One iteration [k] of [for k := range s] on the state [(p, pk, ptmp)]. *)
Definition accumulate_step (pivot : Pivot) (direct : Direct) (pSize : nat)
    (c s : list Qc) (st : General * General * General) (k : nat)
  : General * General * General :=
  let '(p, pk, ptmp) := st in
  let pk := withData pk (map (fun _ => 0) (Data p)) in
  let pk := withData pk (diag_loop (Data pk) (Stride p) pSize) in
  let pk := withData pk (set_pivot pivot (Stride p) k (nth k c 0) (nth k s 0) (Data pk)) in
  let p := if direct_eqb direct Forward
           then Gemm 1 pk ptmp 0 p
           else Gemm 1 ptmp pk 0 p in
  let ptmp := withData ptmp (go_copy (Data ptmp) (Data p)) in
  (p, pk, ptmp).

(** The explicit rotation matrix [P] built by [DlasrTest]. *)
Definition reference_P (pivot : Pivot) (direct : Direct) (pSize : nat) (c s : list Qc)
  : General :=
  let z := repeat 0 (pSize * pSize)%nat in
  let p := mkGeneral pSize pSize pSize (diag_loop z pSize pSize) in
  let pk := mkGeneral pSize pSize pSize z in
  let ptmp := mkGeneral pSize pSize pSize (diag_loop z pSize pSize) in
  let '(p, _, _) := fold_left (accumulate_step pivot direct pSize c s)
                              (seq 0 (length s)) (p, pk, ptmp) in
  p.

(** The [Dlasrer] interface: [impl.Dlasr(side, pivot, direct, m, n, c, s,
    a, lda)] receives the slices [c], [s] and [a] and returns the contents
    it leaves in [a], [c] and [s], in this order. *)
Definition Dlasrer : Type :=
  Side -> Pivot -> Direct -> nat -> nat -> list F -> list F -> list F -> nat ->
  list F * list F * list F.

(** The rationals of a slice all of whose entries are finite. *)
Fixpoint finite_list (l : list F) : option (list Qc) :=
  match l with
  | nil => Some nil
  | Fin q :: t => match finite_list t with Some t' => Some (q :: t') | None => None end
  | _ :: _ => None
  end.

Definition tol12 : F := Fin (Q2Qc (1 # 1000000000000)).

(** One trial of [DlasrTest]. [draw r] is the [r]-th value of
    [rnd.Float64()] and [sincos u] is [(math.Sin(theta), math.Cos(theta))]
    for [theta = u * 2 * math.Pi]. The result is whether
    ["A update mismatch"] is reported, and the new generator position.
    [P] is built from what [c] and [s] hold after [impl.Dlasr]; when one
    of their entries is not finite (an implementation may write NaN or
    an infinity there) the products of [P] are outside the rational
    model of [blas64.Gemm] and the outcome is not modelled ([None]). *)
Definition dlasr_trial (draw : nat -> Qc) (sincos : Qc -> Qc * Qc) (impl : Dlasrer)
    (side : Side) (pivot : Pivot) (direct : Direct) (m n lda0 : nat) (r : nat)
  : option (bool * nat) :=
  let lda := if (lda0 =? 0)%nat then n else lda0 in
  let a := map (fun i => Fin (draw (r + i)%nat)) (seq 0 (m * lda)) in
  let r := (r + m * lda)%nat in
  let K := if side_eqb side Left then (m - 1)%nat else (n - 1)%nat in
  let sc := map (fun k => sincos (draw (r + k)%nat)) (seq 0 K) in
  let r := (r + K)%nat in
  let s := map Fin (map fst sc) in
  let c := map Fin (map snd sc) in
  let aCopy := repeat fzero (length a) in
  let a := go_copy a aCopy in
  let '(a', c', s') := impl side pivot direct m n c s a lda in
  let a := go_copy a a' in
  let c := go_copy c c' in
  let s := go_copy s s' in
  match finite_list c, finite_list s with
  | Some c, Some s =>
      let pSize := if side_eqb side Right then n else m in
      let p := reference_P pivot direct pSize c s in
      let aMat := mkGeneral m n lda (repeat 0 (m * lda)%nat) in
      let a := go_copy a aCopy in
      let newA := mkGeneral m n lda (repeat 0 (m * lda)%nat) in
      let newA := if side_eqb side Left
                  then Gemm 1 p aMat 0 newA
                  else Gemm 1 aMat p 0 newA in
      Some (negb (EqualApprox (map Fin (Data newA)) a tol12), r)
  | _, _ => None
  end.

Definition dlasr_cases : list (nat * nat * nat) :=
  [(5, 5, 0); (5, 10, 0); (10, 5, 0); (5, 5, 20); (5, 10, 20); (10, 5, 20)]%nat.

Definition trial_config : Type := (Side * Pivot * Direct * (nat * nat * nat))%type.

(** The trials in the order of the four nested loops. *)
Definition dlasr_configs : list trial_config :=
  flat_map (fun side =>
    flat_map (fun pivot =>
      flat_map (fun direct =>
        map (fun t => (side, pivot, direct, t)) dlasr_cases)
        [Forward; Backward])
      [Variable_; Top; Bottom])
    [Left; Right].

(** [DlasrTest(t, impl)]: the configurations for which ["A update
    mismatch"] is reported, in order ([None] when a trial is not modelled). *)
Definition DlasrTest (draw : nat -> Qc) (sincos : Qc -> Qc * Qc) (impl : Dlasrer)
  : option (list trial_config) :=
  option_map fst (fold_left
         (fun (acc : option (list trial_config * nat)) cfg =>
            match acc with
            | None => None
            | Some (errs, r) =>
                let '(side, pivot, direct, (m, n, lda)) := cfg in
                match dlasr_trial draw sincos impl side pivot direct m n lda r with
                | Some (bad, r') => Some (if bad then errs ++ [cfg] else errs, r')
                | None => None
                end
            end)
         dlasr_configs (Some ([], 0%nat))).

End DlasrTestModel.

(** * Matrix products and the described trial *)
Module MatrixDefs.
Import DlasrTestModel.
(** The [n x n] identity as [DlasrTest] builds it. *)
Definition ident (n : nat) : list Qc := diag_loop (repeat 0%Qc (n * n)) n n.
(** [X*Y] for [n x n] row-major matrices, through [Gemm]. *)
Definition mmul (n : nat) (X Y : list Qc) : list Qc :=
  Data (Gemm 1 (mkGeneral n n n X) (mkGeneral n n n Y) 0 (mkGeneral n n n (repeat 0%Qc (n * n)))).
(** Entry [(i, j)] of an [n x n] row-major matrix. *)
Definition ent (n : nat) (X : list Qc) (i j : nat) : Qc := nth (i * n + j) X 0%Qc.
(** The product [P_0*P_1*...*P_{K-1}] of a list of matrices; the
    identity for the empty list. *)
Fixpoint mprod (n : nat) (Ps : list (list Qc)) : list Qc :=
  match Ps with
  | nil => ident n
  | P :: nil => P
  | P :: Ps' => mmul n P (mprod n Ps')
  end.
(** The elementary matrix [pk] formed in iteration [k] of the loop. *)
Definition rotation (pivot : Pivot) (pSize : nat) (c s : list Qc) (k : nat) : list Qc :=
  set_pivot pivot pSize k (nth k c 0%Qc) (nth k s 0%Qc) (ident pSize).
(** The shape of the state [(p, pk, ptmp)] of the accumulation loop when
    [p] and [ptmp] both hold [acc]. *)
Definition loop_inv (n : nat) (acc : list Qc) (st : General * General * General) : Prop :=
  let '(p, pk, ptmp) := st in
  Rows p = n /\ Cols p = n /\ Stride p = n /\ Data p = acc /\
  Rows pk = n /\ Cols pk = n /\ Stride pk = n /\
  Cols ptmp = n /\ Stride ptmp = n /\ Data ptmp = acc /\ length acc = (n * n)%nat.
(** [X*X^T = I] for an [n x n] row-major matrix, entrywise. *)
Definition rows_orth (n : nat) (X : list Qc) : Prop :=
  forall i j, (i < n)%nat -> (j < n)%nat ->
    qsum (fun l => ent n X i l * ent n X j l)%Qc n = (if Nat.eqb i j then 1 else 0)%Qc.
(** [X^T*X = I] for an [n x n] row-major matrix, entrywise. *)
Definition cols_orth (n : nat) (X : list Qc) : Prop :=
  forall i j, (i < n)%nat -> (j < n)%nat ->
    qsum (fun l => ent n X l i * ent n X l j)%Qc n = (if Nat.eqb i j then 1 else 0)%Qc.
End MatrixDefs.

Module DlasrReading.
Import DlasrTestModel.
(** One trial as the header comments of [DlasrTest] describe it: [impl.Dlasr]
    is run on the random matrix [A], the reference is [P*A] (or [A*P])
    for that same [A], and the two results are compared. *)
Definition dlasr_trial_as_described (draw : nat -> Qc) (sincos : Qc -> Qc * Qc) (impl : Dlasrer)
    (side : Side) (pivot : Pivot) (direct : Direct) (m n lda0 : nat) (r : nat) : bool :=
  let lda := if (lda0 =? 0)%nat then n else lda0 in
  let adata := map (fun i => draw (r + i)%nat) (seq 0 (m * lda)) in
  let a := map Fin adata in
  let r := (r + m * lda)%nat in
  let K := if side_eqb side Left then (m - 1)%nat else (n - 1)%nat in
  let sc := map (fun k => sincos (draw (r + k)%nat)) (seq 0 K) in
  let s := map fst sc in
  let c := map snd sc in
  let a' := go_copy a (fst (fst (impl side pivot direct m n (map Fin c) (map Fin s) a lda))) in
  let pSize := if side_eqb side Right then n else m in
  let p := reference_P pivot direct pSize c s in
  let aMat := mkGeneral m n lda adata in
  let newA := mkGeneral m n lda (repeat 0%Qc (m * lda)%nat) in
  let newA := if side_eqb side Left
              then Gemm 1 p aMat 0 newA
              else Gemm 1 aMat p 0 newA in
  negb (EqualApprox (map Fin (Data newA)) a' tol12).

(** The implementations that leave [c] and [s] as they are: [g] gives
    what they leave in [a]. *)
Definition keep_cs (g : Side -> Pivot -> Direct -> nat -> nat -> list F -> list F -> list F ->
                        nat -> list F) : Dlasrer :=
  fun side pivot direct m n c s a lda => (g side pivot direct m n c s a lda, c, s).

(** An implementation that overwrites every entry of [a] with [1]. *)
Definition ones_impl : Dlasrer :=
  keep_cs (fun _ _ _ _ _ _ _ a _ => map (fun _ => Fin 1%Qc) a).
End DlasrReading.

(** * Concrete inputs *)
Module Inputs.
Definition f1 : F := Fin (Q2Qc 1).
Definition f2 : F := Fin (Q2Qc 2).
Definition f3 : F := Fin (Q2Qc 3).
Definition f5 : F := Fin (Q2Qc 5).
End Inputs.
Import Inputs.

(** * Properties of the float model *)
Module FloatFacts.

Lemma qeqb_refl (q : Qc) : qeqb q q = true.
Proof. unfold qeqb. destruct (Qc_eq_dec q q); congruence. Qed.

Lemma qeqb_sym (p q : Qc) : qeqb p q = qeqb q p.
Proof.
  unfold qeqb. destruct (Qc_eq_dec p q), (Qc_eq_dec q p); subst; congruence.
Qed.

Lemma feq_sym (a b : F) : feq a b = feq b a.
Proof. destruct a, b; simpl; auto using qeqb_sym. Qed.

Lemma Same_refl (a : F) : Same a a = true.
Proof. destruct a; unfold Same; simpl; rewrite ?qeqb_refl; reflexivity. Qed.

Lemma Same_sym (a b : F) : Same a b = Same b a.
Proof. unfold Same. rewrite feq_sym. destruct a, b; reflexivity. Qed.

Lemma fabs_fsub_sym (a b : F) : fabs (fsub a b) = fabs (fsub b a).
Proof. destruct a, b; simpl; try reflexivity. f_equal. apply Qcabs_Qcminus. Qed.

Lemma flt_Fin_true (p q : Qc) : (p < q)%Qc -> flt (Fin p) (Fin q) = true.
Proof.
  intro H. unfold flt; simpl. unfold qleb, qeqb.
  assert (Hle : Qle_bool (this p) (this q) = true)
    by (apply Qle_bool_iff; apply Qlt_le_weak; exact H).
  rewrite Hle. destruct (Qc_eq_dec p q) as [E|E]; [|reflexivity].
  subst. exfalso. apply (Qlt_irrefl (this q)). exact H.
Qed.

Lemma flt_Fin_false (p q : Qc) : (q < p)%Qc -> flt (Fin p) (Fin q) = false.
Proof.
  intro H. unfold flt; simpl. unfold qleb.
  destruct (Qle_bool (this p) (this q)) eqn:E; [|reflexivity].
  apply Qle_bool_iff in E. exfalso. apply (Qlt_not_le (this q) (this p)); assumption.
Qed.

Lemma fmax_sym (x y : F) : fmax x y = fmax y x.
Proof.
  destruct x as [p| | |], y as [q| | |]; try reflexivity.
  unfold fmax.
  destruct (Qc_dec p q) as [[H|H]|H].
  - rewrite (flt_Fin_false q p H), (flt_Fin_true p q H). reflexivity.
  - rewrite (flt_Fin_true q p H), (flt_Fin_false p q H). reflexivity.
  - subst. destruct (flt (Fin q) (Fin q)); reflexivity.
Qed.

Lemma EqualWithinAbs_sym (a b tol : F) : EqualWithinAbs a b tol = EqualWithinAbs b a tol.
Proof. unfold EqualWithinAbs. rewrite feq_sym, fabs_fsub_sym. reflexivity. Qed.

Lemma EqualWithinRel_sym (a b tol : F) : EqualWithinRel a b tol = EqualWithinRel b a tol.
Proof.
  unfold EqualWithinRel. rewrite feq_sym, fabs_fsub_sym, (fmax_sym (fabs a)). reflexivity.
Qed.

End FloatFacts.
Import FloatFacts.

(** * Properties of the asm_test helpers *)
Module AsmTestProofs.
Import AsmTest.
Open Scope Z_scope.

Lemma absInc_abs (inc : Z) : absInc inc = Z.abs inc.
Proof. unfold absInc. destruct (Z.ltb_spec inc 0); lia. Qed.

Lemma absInc_opp (inc : Z) : absInc (- inc) = absInc inc.
Proof. rewrite !absInc_abs. apply Z.abs_opp. Qed.

(** C7: [sameApprox] is reflexive (for every value, in particular every
    finite value and NaN) and symmetric, for every tolerance. *)
Theorem sameApprox_refl_sym :
  (forall x tol, sameApprox x x tol = true) /\
  (forall a b tol, sameApprox a b tol = sameApprox b a tol).
Proof.
  split.
  - intros x tol. unfold sameApprox. rewrite Same_refl. reflexivity.
  - intros a b tol. unfold sameApprox, EqualWithinAbsOrRel.
    rewrite Same_sym, EqualWithinAbs_sym, EqualWithinRel_sym. reflexivity.
Qed.

(** C9: both guarded-buffer builders give the same result for [inc] and
    [-inc]. *)
Theorem guarded_builders_sign_insensitive :
  (forall data inc, newGuardedVector data inc = newGuardedVector data (- inc)) /\
  (forall vec gdVal inc gdLen,
      guardIncVector vec gdVal inc gdLen = guardIncVector vec gdVal (- inc) gdLen).
Proof.
  split.
  - intros data inc. unfold newGuardedVector. rewrite absInc_opp. reflexivity.
  - intros vec gdVal inc gdLen. unfold guardIncVector. rewrite absInc_opp. reflexivity.
Qed.

Lemma checkOffset_sentinel vec gdVal inc gdLen srcLn i :
  checkOffset vec gdVal inc gdLen srcLn i gdVal = Some [].
Proof. unfold checkOffset. rewrite Same_refl. reflexivity. Qed.

(** C5: with guard length 4, stride 3 and data [1; 2; 3], [guardIncVector]
    builds a buffer of length 17 holding the sentinel everywhere except
    offsets 4, 7 and 10, and [checkValidIncGuard] reports nothing on it,
    for every sentinel value. *)
Theorem guardIncVector_3_4_clean (gdVal : F) :
  let g := [gdVal; gdVal; gdVal; gdVal; f1; gdVal; gdVal; f2; gdVal; gdVal; f3;
            gdVal; gdVal; gdVal; gdVal; gdVal; gdVal] in
  guardIncVector [f1; f2; f3] gdVal 3 4 = Some g /\
  length g = 17%nat /\
  checkValidIncGuard g gdVal 3 4 = Some [].
Proof.
  intro g. split; [reflexivity|]. split; [reflexivity|].
  unfold g, checkValidIncGuard. cbn -[checkOffset].
  rewrite !checkOffset_sentinel. unfold checkOffset.
  destruct (Same f1 gdVal), (Same f2 gdVal), (Same f3 gdVal); reflexivity.
Qed.

(** C2 (defect): with stride 1, a write to offset 0 of the front guard is
    not reported, because the data-slot test [(i-gdLen)%inc == 0 &&
    (i-gdLen)/inc < len(vec)] also accepts guard offsets; with stride 2 the
    same happens at back-guard offset 12 (Go's [%] truncates toward zero and
    the bound is [len(vec)] instead of the number of elements). *)
Theorem checkValidIncGuard_misses_guard_writes :
  (guardIncVector [f1; f2; f3] NaN 1 4
   = Some [NaN; NaN; NaN; NaN; f1; f2; f3; NaN; NaN; NaN; NaN] /\
   checkValidIncGuard [f5; NaN; NaN; NaN; f1; f2; f3; NaN; NaN; NaN; NaN] NaN 1 4
   = Some []) /\
  (guardIncVector [f1; f2; f3] NaN 2 4
   = Some [NaN; NaN; NaN; NaN; f1; NaN; f2; NaN; f3; NaN; NaN; NaN; NaN; NaN] /\
   checkValidIncGuard [NaN; NaN; NaN; NaN; f1; NaN; f2; NaN; f3; NaN; NaN; NaN; f5; NaN]
                      NaN 2 4
   = Some []).
Proof. vm_compute. repeat split. Qed.

(** C3 (as amended): for [|inc| >= 1] and empty data, [newGuardedVector]
    returns an empty vector and two NaN guards of length 2 when
    [|inc| = 1], and panics (slice bounds) when [|inc| >= 2]. *)
Theorem newGuardedVector_empty (inc : Z) (Hinc : 1 <= Z.abs inc) :
  newGuardedVector [] inc =
  if Z.abs inc =? 1
  then Some (mkSlice [NaN; NaN; NaN; NaN] 2 2,
             mkSlice [NaN; NaN; NaN; NaN] 0 2,
             mkSlice [NaN; NaN; NaN; NaN] 2 4)
  else None.
Proof.
  unfold newGuardedVector. rewrite absInc_abs.
  destruct (Z.eqb_spec (Z.abs inc) 1) as [E|E].
  - rewrite E. reflexivity.
  - set (a := Z.abs inc) in *.
    unfold make. change (Zlen (@nil F)) with 0.
    replace ((0 - 1) * a + 1 + 2 * (2 * a)) with (3 * a + 1) by ring.
    destruct (Z.ltb_spec (3 * a + 1) 0) as [H|H]; [lia|].
    unfold Zlen at 1 2 3 4. rewrite repeat_length, Z2Nat.id by lia.
    destruct (Z.leb_spec (2 * a) (3 * a + 1 - 2 * a)); [lia|].
    rewrite andb_false_r, andb_false_l. reflexivity.
Qed.

Lemma newGuardedVector_empty_witness :
  1 <= Z.abs 3 /\ newGuardedVector [] 3 = None.
Proof.
  split; [lia|]. rewrite (newGuardedVector_empty 3) by lia. reflexivity.
Defined.

(** C3 (counterexample): with stride 2 and empty data, [newGuardedVector]
    panics instead of returning the two guards. *)
Lemma newGuardedVector_empty_stride2_panics : newGuardedVector [] 2 = None.
Proof. vm_compute. reflexivity. Qed.

End AsmTestProofs.

(** * List and slice facts *)
Module ListFacts.
Open Scope Z_scope.

Lemma length_upd {A} (l : list A) i v : length (upd l i v) = length l.
Proof. revert i; induction l; intros [|i]; simpl; auto. Qed.

Lemma nth_error_upd_eq {A} (l : list A) i v :
  (i < length l)%nat -> nth_error (upd l i v) i = Some v.
Proof.
  revert i; induction l; intros [|i] H; simpl in *; try lia; auto.
  apply IHl. lia.
Qed.

Lemma nth_error_upd_neq {A} (l : list A) i j v :
  i <> j -> nth_error (upd l i v) j = nth_error l j.
Proof.
  revert i j; induction l; intros [|i] [|j] H; simpl; auto; try congruence.
Qed.

Lemma nth_error_upd {A} (l : list A) i j v :
  nth_error (upd l i v) j =
  if Nat.eqb i j then (if (i <? length l)%nat then Some v else None) else nth_error l j.
Proof.
  destruct (Nat.eqb_spec i j) as [->|E].
  - destruct (Nat.ltb_spec j (length l)).
    + apply nth_error_upd_eq; auto.
    + apply nth_error_None. rewrite length_upd. lia.
  - apply nth_error_upd_neq; auto.
Qed.

Lemma nth_error_upd_same {A} (l : list A) p j v :
  nth_error l j = Some v -> nth_error (upd l p v) j = Some v.
Proof.
  intro H. rewrite nth_error_upd.
  destruct (Nat.eqb_spec p j); auto. subst.
  destruct (Nat.ltb_spec j (length l)); auto.
  exfalso. assert (nth_error l j = None) by (apply nth_error_None; lia). congruence.
Qed.

Lemma setZ_ok {A} (l : list A) p v :
  0 <= p < Zlen l -> setZ l p v = Some (upd l (Z.to_nat p) v).
Proof.
  intro H. unfold setZ.
  destruct (Z.leb_spec 0 p), (Z.ltb_spec p (Zlen l)); simpl; auto; lia.
Qed.

Lemma getZ_ok {A} (l : list A) p : 0 <= p -> getZ l p = nth_error l (Z.to_nat p).
Proof. intro H. unfold getZ. destruct (Z.leb_spec 0 p); auto; lia. Qed.

Lemma Zlen_upd {A} (l : list A) i v : Zlen (upd l i v) = Zlen l.
Proof. unfold Zlen. rewrite length_upd. reflexivity. Qed.

Lemma nth_error_view (s : slice) j :
  nth_error (view s) j =
  if (j <? Z.to_nat (shi s - slo s))%nat then nth_error (sarr s) (Z.to_nat (slo s) + j)
  else None.
Proof. unfold view. rewrite nth_error_firstn, nth_error_skipn. reflexivity. Qed.

End ListFacts.
Import ListFacts.

(** * Build-then-validate for the unit-stride guards *)
Module GuardVectorProofs.
Import AsmTest.
Open Scope Z_scope.

Lemma guardVector_loop_keeps k i g v g' j :
  guardVector_loop k i g v = Some g' -> nth_error g j = Some v -> nth_error g' j = Some v.
Proof.
  revert i g. induction k as [|k IH]; intros i g H Hj; simpl in H.
  - congruence.
  - unfold setZ in H.
    destruct ((0 <=? i) && (i <? Zlen g)); [|discriminate].
    destruct ((0 <=? Zlen (upd g (Z.to_nat i) v) - 1 - i)
              && (Zlen (upd g (Z.to_nat i) v) - 1 - i <? Zlen (upd g (Z.to_nat i) v)));
      [|discriminate].
    eapply IH; [exact H|]. apply nth_error_upd_same, nth_error_upd_same. exact Hj.
Qed.

Lemma guardVector_loop_spec k i g v :
  0 <= i -> i + Z.of_nat k <= Zlen g ->
  exists g', guardVector_loop k i g v = Some g' /\ length g' = length g /\
    forall j, i <= j < i + Z.of_nat k ->
      nth_error g' (Z.to_nat j) = Some v /\
      nth_error g' (Z.to_nat (Zlen g - 1 - j)) = Some v.
Proof.
  revert i g. induction k as [|k IH]; intros i g Hi Hk.
  - exists g. simpl. repeat split; auto; lia.
  - simpl guardVector_loop.
    rewrite setZ_ok by lia. rewrite Zlen_upd. rewrite setZ_ok by (rewrite Zlen_upd; lia).
    set (g1 := upd (upd g (Z.to_nat i) v) (Z.to_nat (Zlen g - 1 - i)) v).
    assert (Hl1 : Zlen g1 = Zlen g) by (unfold g1; rewrite !Zlen_upd; reflexivity).
    destruct (IH (i + 1) g1) as [g' [Hrun [Hlen Hall]]]; [lia|lia|].
    exists g'. split; [exact Hrun|]. split.
    { rewrite Hlen. unfold g1. rewrite !length_upd. reflexivity. }
    intros j Hj.
    destruct (Z.eq_dec j i) as [->|Hne].
    + unfold Zlen in *. split.
      * eapply guardVector_loop_keeps; [exact Hrun|].
        unfold g1. apply nth_error_upd_same, nth_error_upd_eq. lia.
      * eapply guardVector_loop_keeps; [exact Hrun|].
        unfold g1. apply nth_error_upd_eq. rewrite length_upd. lia.
    + rewrite <- Hl1. apply Hall. lia.
Qed.

Lemma isValidGuard_loop_spec k i vec v :
  0 <= i -> i + Z.of_nat k <= Zlen vec ->
  (forall j, i <= j < i + Z.of_nat k ->
     nth_error vec (Z.to_nat j) = Some v /\
     nth_error vec (Z.to_nat (Zlen vec - 1 - j)) = Some v) ->
  isValidGuard_loop k i vec v = Some true.
Proof.
  revert i. induction k as [|k IH]; intros i Hi Hk Hall; [reflexivity|].
  simpl. destruct (Hall i) as [H1 H2]; [lia|].
  rewrite getZ_ok, H1 by lia. rewrite Same_refl. simpl.
  rewrite getZ_ok, H2 by lia. rewrite Same_refl. simpl.
  apply IH; [lia|lia|]. intros j Hj. apply Hall. lia.
Qed.

(** C10: for every vector, guard value and guard length [gdLn >= 0],
    [guardVector] succeeds and [isValidGuard] accepts its result. *)
Theorem guardVector_isValidGuard (vec : list F) (gdVal : F) (gdLn : Z) (H : 0 <= gdLn) :
  exists g, guardVector vec gdVal gdLn = Some g /\ isValidGuard g gdVal gdLn = Some true.
Proof.
  unfold guardVector, make.
  destruct (Z.ltb_spec (Zlen vec + gdLn * 2) 0) as [Hneg|_].
  { unfold Zlen in Hneg. lia. }
  set (rep := repeat fzero (Z.to_nat (Zlen vec + gdLn * 2))).
  assert (Hrep : Zlen rep = Zlen vec + gdLn * 2).
  { unfold rep, Zlen at 1. rewrite repeat_length. unfold Zlen in *. lia. }
  destruct (Z.leb_spec 0 gdLn) as [_|]; [|lia].
  destruct (Z.leb_spec gdLn (Zlen rep)) as [_|]; [|unfold Zlen in *; lia].
  simpl andb. cbv iota.
  set (g0 := firstn (Z.to_nat gdLn) rep ++ go_copy (skipn (Z.to_nat gdLn) rep) vec).
  assert (Hg0 : Zlen g0 = Zlen rep).
  { unfold g0, go_copy, Zlen. rewrite !length_app, !length_firstn, !length_skipn.
    unfold Zlen in Hrep. lia. }
  destruct (guardVector_loop_spec (Z.to_nat gdLn) 0 g0 gdVal) as [g [Hrun [Hlen Hall]]];
    [lia|unfold Zlen in *; lia|].
  exists g. split; [exact Hrun|].
  unfold isValidGuard. apply isValidGuard_loop_spec; [lia| |].
  - unfold Zlen in *. rewrite Hlen. lia.
  - intros j Hj. assert (E : Zlen g = Zlen g0) by (unfold Zlen; rewrite Hlen; reflexivity).
    rewrite E. apply Hall. exact Hj.
Qed.

Lemma guardVector_isValidGuard_witness :
  0 <= 2 /\ exists g, guardVector [f1; f2] f3 2 = Some g /\ isValidGuard g f3 2 = Some true.
Proof. split; [lia|]. apply (guardVector_isValidGuard [f1; f2] f3 2). lia. Defined.

End GuardVectorProofs.

(** * Layout of [newGuardedVector] *)
Module GuardedVectorProofs.
Import AsmTest AsmTestProofs.
Open Scope Z_scope.

Lemma to_nat_lin (g a : Z) (i : nat) :
  0 <= g -> 0 <= a -> Z.to_nat (g + Z.of_nat i * a) = (Z.to_nat g + i * Z.to_nat a)%nat.
Proof.
  intros Hg Ha. apply Nat2Z.inj.
  rewrite Nat2Z.inj_add, Nat2Z.inj_mul, !Z2Nat.id by nia. reflexivity.
Qed.

Lemma write_strided_spec (data : list F) : forall whole g vlen a (i0 : nat),
  0 <= g -> 0 < a ->
  (Z.of_nat (i0 + length data) - 1) * a < vlen -> g + vlen <= Zlen whole ->
  exists W, write_strided whole g vlen a data (Z.of_nat i0) = Some W /\
    length W = length whole /\
    (forall i, (i < length data)%nat ->
       nth_error W (Z.to_nat g + (i0 + i) * Z.to_nat a)%nat = nth_error data i) /\
    (forall j, (forall i, (i < length data)%nat -> j <> (Z.to_nat g + (i0 + i) * Z.to_nat a)%nat) ->
       nth_error W j = nth_error whole j).
Proof.
  induction data as [|d rest IH]; intros whole g vlen a i0 Hg Ha Hv Hw.
  - exists whole. simpl. repeat split; auto. intros i Hi; simpl in Hi; lia.
  - simpl length in Hv. simpl write_strided.
    assert (Hlo : 0 <= Z.of_nat i0 * a) by nia.
    assert (Hhi : Z.of_nat i0 * a < vlen).
    { eapply Z.le_lt_trans; [|exact Hv]. apply Z.mul_le_mono_nonneg_r; lia. }
    destruct (Z.leb_spec 0 (Z.of_nat i0 * a)); [|lia].
    destruct (Z.ltb_spec (Z.of_nat i0 * a) vlen); [|lia]. simpl andb. cbv iota.
    rewrite setZ_ok by lia.
    rewrite to_nat_lin by lia.
    set (p0 := (Z.to_nat g + i0 * Z.to_nat a)%nat).
    replace (Z.of_nat i0 + 1) with (Z.of_nat (S i0)) by lia.
    destruct (IH (upd whole p0 d) g vlen a (S i0)) as [W [Hrun [Hlen [Hin Hout]]]];
      [lia|lia|replace (S i0 + length rest)%nat with (i0 + S (length rest))%nat by lia; exact Hv
       |rewrite Zlen_upd; exact Hw|].
    exists W. split; [exact Hrun|]. split; [rewrite Hlen, length_upd; reflexivity|]. split.
    + intros [|i] Hi.
      * rewrite Nat.add_0_r. fold p0. rewrite Hout.
        -- apply nth_error_upd_eq. unfold Zlen in Hw.
           assert (Z.of_nat p0 < Z.of_nat (length whole)); [|lia].
           unfold p0. rewrite Nat2Z.inj_add, Nat2Z.inj_mul, !Z2Nat.id by lia. lia.
        -- intros i' _. unfold p0. nia.
      * rewrite <- Nat.add_succ_comm. apply Hin. simpl in Hi. lia.
    + intros j Hj. rewrite Hout.
      * apply nth_error_upd_neq. specialize (Hj O). unfold p0. rewrite Nat.add_0_r in Hj.
        intro E. apply Hj; [simpl; lia|auto].
      * intros i Hi. replace (S i0 + i)%nat with (i0 + S i)%nat by lia. apply Hj. simpl. lia.
Qed.

Lemma equalStrided_loop_spec (ref : list F) : forall x a (i0 : nat),
  0 <= a ->
  (forall i, (i < length ref)%nat -> nth_error x ((i0 + i) * Z.to_nat a)%nat = nth_error ref i) ->
  equalStrided_loop ref x a (Z.of_nat i0) = Some true.
Proof.
  induction ref as [|r rest IH]; intros x a i0 Ha H; [reflexivity|].
  simpl. rewrite getZ_ok by nia.
  replace (Z.to_nat (Z.of_nat i0 * a)) with (i0 * Z.to_nat a)%nat
    by (rewrite Z2Nat.inj_mul, Nat2Z.id by lia; reflexivity).
  specialize (H O) as H0. rewrite Nat.add_0_r in H0. rewrite H0 by (simpl; lia).
  simpl. rewrite Same_refl.
  replace (Z.of_nat i0 + 1) with (Z.of_nat (S i0)) by lia.
  apply IH; [lia|]. intros i Hi. replace (S i0 + i)%nat with (i0 + S i)%nat by lia.
  apply (H (S i)). simpl. lia.
Qed.

Lemma nonStridedWrite_loop_spec (x : list F) : forall a (i0 : nat),
  0 < a ->
  (forall j, (j < length x)%nat -> ((i0 + j) mod Z.to_nat a <> 0)%nat -> nth_error x j = Some NaN) ->
  nonStridedWrite_loop x a (Z.of_nat i0) = Some false.
Proof.
  induction x as [|v rest IH]; intros a i0 Ha H; [reflexivity|].
  simpl. destruct (Z.eqb_spec a 0); [lia|].
  assert (Hrem : Z.rem (Z.of_nat i0) a = Z.of_nat (i0 mod Z.to_nat a)).
  { rewrite Nat2Z.inj_mod, Z2Nat.id by lia. apply Z.rem_mod_nonneg; lia. }
  rewrite Hrem.
  destruct (Nat.eqb_spec (i0 mod Z.to_nat a) 0) as [E|E].
  - rewrite E. simpl. replace (Z.of_nat i0 + 1) with (Z.of_nat (S i0)) by lia.
    apply IH; [lia|]. intros j Hj Hm. apply (H (S j)); [simpl; lia|].
    replace (i0 + S j)%nat with (S i0 + j)%nat by lia. exact Hm.
  - assert (Hv : v = NaN).
    { specialize (H O). rewrite Nat.add_0_r in H. simpl in H.
      assert (Some v = Some NaN) by (apply H; lia). congruence. }
    subst v. rewrite andb_false_r.
    replace (Z.of_nat i0 + 1) with (Z.of_nat (S i0)) by lia.
    apply IH; [lia|]. intros j Hj Hm. apply (H (S j)); [simpl; lia|].
    replace (i0 + S j)%nat with (S i0 + j)%nat by lia. exact Hm.
Qed.

Lemma allNaN_nth (l : list F) :
  (forall j, (j < length l)%nat -> nth_error l j = Some NaN) -> allNaN l = true.
Proof.
  intro H. unfold allNaN. apply forallb_forall. intros x Hx.
  destruct (In_nth_error l x Hx) as [j Hj].
  assert (Hlt : (j < length l)%nat) by (apply nth_error_Some; congruence).
  rewrite H in Hj by exact Hlt. injection Hj as <-. reflexivity.
Qed.

(** C4: for non-empty data and [|inc| >= 1], [newGuardedVector] returns a
    vector view and two guards that are adjacent windows of one backing
    array; the view holds [data[i]] at offset [i*|inc|] and NaN elsewhere,
    both guards have length [2*|inc|] and hold only NaN, and the checks
    [allNaN], [equalStrided] and [nonStridedWrite] find nothing. *)
Theorem newGuardedVector_layout (data : list F) (inc : Z)
    (Hd : data <> []) (Hinc : 1 <= Z.abs inc) :
  let A := Z.to_nat (Z.abs inc) in
  exists v fg bg, newGuardedVector data inc = Some (v, fg, bg) /\
    sarr fg = sarr v /\ sarr bg = sarr v /\
    slo fg = 0 /\ shi fg = slo v /\ shi v = slo bg /\ shi bg = Zlen (sarr v) /\
    length (view v) = ((length data - 1) * A + 1)%nat /\
    length (view fg) = (2 * A)%nat /\ length (view bg) = (2 * A)%nat /\
    (forall i, (i < length data)%nat -> nth_error (view v) (i * A) = nth_error data i) /\
    (forall j, (j < length (view v))%nat ->
       (forall i, (i < length data)%nat -> j <> (i * A)%nat) ->
       nth_error (view v) j = Some NaN) /\
    (forall j, (j < 2 * A)%nat ->
       nth_error (view fg) j = Some NaN /\ nth_error (view bg) j = Some NaN) /\
    allNaN (view fg) = true /\ allNaN (view bg) = true /\
    equalStrided data (view v) inc = Some true /\
    nonStridedWrite (view v) inc = Some false.
Proof.
  intro A. destruct data as [|d rest]; [congruence|]. clear Hd.
  set (M := length rest).
  assert (HN : Zlen (d :: rest) = Z.of_nat (S M)) by reflexivity.
  unfold newGuardedVector. rewrite absInc_abs, HN.
  set (a := Z.abs inc) in *.
  assert (Ha : a = Z.of_nat A) by (unfold A; lia).
  set (wl := (Z.of_nat (S M) - 1) * a + 1 + 2 * (2 * a)).
  unfold make. destruct (Z.ltb_spec wl 0) as [Hneg|_]; [unfold wl in Hneg; nia|].
  set (whole0 := repeat fzero (Z.to_nat wl)).
  assert (Hw0 : Zlen whole0 = wl).
  { unfold Zlen, whole0. rewrite repeat_length. unfold wl. nia. }
  rewrite Hw0.
  destruct (Z.leb_spec 0 (2 * a)); [|lia].
  destruct (Z.leb_spec (2 * a) (wl - 2 * a)); [|unfold wl in *; nia].
  destruct (Z.leb_spec (wl - 2 * a) wl); [|lia].
  simpl andb. cbv iota.
  set (W0 := map (fun _ : F => NaN) whole0).
  assert (HW0 : forall j, (j < Z.to_nat wl)%nat -> nth_error W0 j = Some NaN).
  { intros j Hj. unfold W0, whole0. rewrite nth_error_map, nth_error_repeat by exact Hj.
    reflexivity. }
  assert (HlW0 : length W0 = Z.to_nat wl).
  { unfold W0, whole0. rewrite length_map, repeat_length. reflexivity. }
  destruct (write_strided_spec (d :: rest) W0 (2 * a) (wl - 2 * (2 * a)) a 0%nat)
    as [W [Hrun [HlenW [Hin Hout]]]];
    [lia|lia|simpl length; unfold wl; nia|unfold Zlen; rewrite HlW0; unfold wl; nia|].
  change (Z.of_nat 0) with 0 in Hrun. rewrite Hrun.
  assert (E2a : Z.to_nat (2 * a) = (2 * A)%nat) by lia.
  assert (Ea : Z.to_nat a = A) by lia.
  assert (Ewl : Z.to_nat wl = (M * A + 1 + 4 * A)%nat) by (unfold wl; nia).
  assert (Ev : Z.to_nat (wl - 2 * a - 2 * a) = (M * A + 1)%nat) by (unfold wl; nia).
  assert (Eb : Z.to_nat (wl - 2 * a) = (M * A + 1 + 2 * A)%nat) by (unfold wl; nia).
  assert (Ebl : Z.to_nat (wl - (wl - 2 * a)) = (2 * A)%nat) by lia.
  rewrite E2a, Ea in Hin, Hout.
  assert (HA : (1 <= A)%nat) by lia.
  set (v := mkSlice W (2 * a) (wl - 2 * a)).
  set (fg := mkSlice W 0 (2 * a)).
  set (bg := mkSlice W (wl - 2 * a) wl).
  assert (Hlv : length (view v) = (M * A + 1)%nat).
  { unfold view, v; cbn [sarr slo shi].
    rewrite length_firstn, length_skipn, HlenW, HlW0, Ev, Ewl, E2a. lia. }
  assert (Hdata : forall i, (i < S M)%nat -> nth_error (view v) (i * A) = nth_error (d :: rest) i).
  { intros i Hi. rewrite nth_error_view. unfold v; cbn [sarr slo shi].
    rewrite Ev, E2a. destruct (Nat.ltb_spec (i * A) (M * A + 1)) as [_|Hc]; [|nia].
    apply Hin. exact Hi. }
  assert (Hnan : forall j, (j < length (view v))%nat ->
            (forall i, (i < S M)%nat -> j <> (i * A)%nat) -> nth_error (view v) j = Some NaN).
  { intros j Hj Hne. rewrite Hlv in Hj. rewrite nth_error_view. unfold v; cbn [sarr slo shi].
    rewrite Ev, E2a. destruct (Nat.ltb_spec j (M * A + 1)) as [_|Hc]; [|lia].
    rewrite Hout.
    - apply HW0. lia.
    - intros i Hi E. apply (Hne i Hi). lia. }
  assert (Hguards : forall j, (j < 2 * A)%nat ->
            nth_error (view fg) j = Some NaN /\ nth_error (view bg) j = Some NaN).
  { intros j Hj. rewrite !nth_error_view. unfold fg, bg; cbn [sarr slo shi].
    replace (2 * a - 0) with (2 * a) by ring.
    rewrite E2a, Ebl, Eb. destruct (Nat.ltb_spec j (2 * A)) as [_|Hc]; [|lia].
    split; rewrite Hout.
    - apply HW0. lia.
    - intros i Hi. simpl in Hi. nia.
    - apply HW0. lia.
    - intros i Hi. simpl in Hi. nia. }
  exists v, fg, bg. split; [reflexivity|].
  do 5 (split; [reflexivity|]).
  split; [unfold Zlen, bg, v; cbn [sarr slo shi]; rewrite HlenW, HlW0; lia|].
  split; [rewrite Hlv; change (length (d :: rest)) with (S M);
          replace (S M - 1)%nat with M by lia; reflexivity|].
  split.
  { unfold view, fg; cbn [sarr slo shi].
    replace (2 * a - 0) with (2 * a) by ring.
    rewrite length_firstn, length_skipn, HlenW, HlW0, Ewl, E2a. lia. }
  split.
  { unfold view, bg; cbn [sarr slo shi].
    rewrite length_firstn, length_skipn, HlenW, HlW0, Ewl, Eb, Ebl. lia. }
  split; [exact Hdata|].
  split; [exact Hnan|].
  split; [exact Hguards|].
  split.
  { apply allNaN_nth. intros j Hj. apply Hguards.
    unfold view, fg in Hj; cbn [sarr slo shi] in Hj.
    replace (2 * a - 0) with (2 * a) in Hj by ring.
    rewrite length_firstn, length_skipn, E2a in Hj. lia. }
  split.
  { apply allNaN_nth. intros j Hj. apply Hguards.
    unfold view, bg in Hj; cbn [sarr slo shi] in Hj.
    rewrite length_firstn, length_skipn, Ebl in Hj. lia. }
  split.
  - unfold equalStrided. rewrite absInc_abs. fold a.
    apply (equalStrided_loop_spec _ _ _ 0%nat); [lia|].
    intros i Hi. rewrite Ea. apply Hdata. exact Hi.
  - unfold nonStridedWrite. rewrite absInc_abs. fold a.
    apply (nonStridedWrite_loop_spec _ _ 0%nat); [lia|].
    intros j Hj Hm. rewrite Ea in Hm. apply Hnan; [exact Hj|].
    intros i _ E. apply Hm. subst j. apply Nat.Div0.mod_mul.
Qed.

Lemma newGuardedVector_layout_witness :
  [f1; f2] <> [] /\ 1 <= Z.abs (-2) /\
  exists v fg bg, newGuardedVector [f1; f2] (-2) = Some (v, fg, bg) /\
                  equalStrided [f1; f2] (view v) (-2) = Some true.
Proof.
  split; [discriminate|]. split; [lia|].
  destruct (newGuardedVector_layout [f1; f2] (-2)) as [v [fg [bg H]]];
    [discriminate|lia|].
  exists v, fg, bg. tauto.
Defined.

End GuardedVectorProofs.

(** * The increment enumerators *)
Module IncSetProofs.
Import AsmTest.
Open Scope nat_scope.


Lemma upd_prefix {A} (d : A) (T : list A) : forall Z0 p,
  length Z0 = length T -> p < length T ->
  upd (prefix T Z0 p) p (nth p T d) = prefix T Z0 (S p).
Proof.
  unfold prefix.
  induction T as [|t ts IH]; intros Z0 p HL Hp; simpl in Hp; [lia|].
  destruct Z0 as [|z zs]; simpl in HL; [lia|].
  destruct p as [|p]; [reflexivity|].
  simpl. f_equal. apply IH; lia.
Qed.

Lemma fold_seq_prefix {S} (P : nat -> S) (body : S -> nat -> S) (base w : nat) :
  forall k, (forall j, j < k -> body (P (base + j * w)) j = P (base + (j + 1) * w)) ->
  fold_left body (seq 0 k) (P base) = P (base + k * w).
Proof.
  induction k as [|k IH]; intros H.
  - simpl. rewrite Nat.add_0_r. reflexivity.
  - rewrite seq_S, fold_left_app. simpl.
    rewrite IH by (intros j Hj; apply H; lia).
    rewrite H by lia. f_equal. lia.
Qed.

Lemma nth_flat_map_block {A B} (f : A -> list B) (l : list A) (n : nat) (a0 : A) (d : B) :
  (forall a, length (f a) = n) ->
  forall x y, x < length l -> y < n ->
  nth (x * n + y) (flat_map f l) d = nth y (f (nth x l a0)) d.
Proof.
  intros Hf. induction l as [|a l IH]; intros x y Hx Hy; simpl in Hx; [lia|].
  simpl. destruct x as [|x].
  - simpl. rewrite app_nth1 by (rewrite Hf; lia). reflexivity.
  - rewrite app_nth2 by (rewrite Hf; lia). rewrite Hf.
    replace (S x * n + y - n) with (x * n + y) by lia. apply IH; lia.
Qed.

Lemma length_flat_map_block {A B} (f : A -> list B) (l : list A) (n : nat) :
  (forall a, length (f a) = n) -> length (flat_map f l) = length l * n.
Proof.
  intros Hf. induction l as [|a l IH]; [reflexivity|].
  simpl. rewrite length_app, Hf, IH. reflexivity.
Qed.


Lemma length_incPairs inc : length (incPairs inc) = length inc * length inc.
Proof.
  unfold incPairs. apply length_flat_map_block. intros. apply length_map.
Qed.

Lemma length_incTriples inc :
  length (incTriples inc) = length inc * length inc * length inc.
Proof.
  unfold incTriples. rewrite (length_flat_map_block _ _ (length inc * length inc)); [lia|].
  intros. rewrite (length_flat_map_block _ _ (length inc)); [reflexivity|].
  intros. apply length_map.
Qed.

Lemma nth_incPairs inc x y :
  x < length inc -> y < length inc ->
  nth (x * length inc + y) (incPairs inc) zeroIncSet = mkIncSet (nth x inc 0%Z) (nth y inc 0%Z).
Proof.
  intros Hx Hy. unfold incPairs.
  rewrite (nth_flat_map_block _ _ (length inc) 0%Z); [|intros; apply length_map|lia|lia].
  rewrite (nth_indep _ _ (mkIncSet (nth x inc 0%Z) 0%Z)) by (rewrite length_map; lia).
  rewrite map_nth. reflexivity.
Qed.

Lemma nth_incTriples inc i x y :
  i < length inc -> x < length inc -> y < length inc ->
  nth (i * length inc * length inc + x * length inc + y) (incTriples inc) zeroIncToSet
  = mkIncToSet (nth i inc 0%Z) (nth x inc 0%Z) (nth y inc 0%Z).
Proof.
  intros Hi Hx Hy. unfold incTriples. set (n := length inc) in *.
  replace (i * n * n + x * n + y) with (i * (n * n) + (x * n + y)) by lia.
  rewrite (nth_flat_map_block _ _ (n * n) 0%Z); [| |lia|nia].
  - rewrite (nth_flat_map_block _ _ n 0%Z); [|intros; apply length_map|lia|lia].
    rewrite (nth_indep _ _ (mkIncToSet (nth i inc 0%Z) (nth x inc 0%Z) 0%Z)) by (rewrite length_map; lia).
    rewrite map_nth. reflexivity.
  - intros. rewrite (length_flat_map_block _ _ n); [reflexivity|]. intros; apply length_map.
Qed.

Lemma prefix_0 {A} (T Z0 : list A) : prefix T Z0 0 = Z0.
Proof. reflexivity. Qed.

Lemma prefix_all {A} (T Z0 : list A) : length Z0 = length T -> prefix T Z0 (length T) = T.
Proof.
  intro H. unfold prefix. rewrite firstn_all, skipn_all2 by lia. apply app_nil_r.
Qed.

Lemma newIncSet_pairs inc : newIncSet inc = incPairs inc.
Proof.
  unfold newIncSet. set (n := length inc).
  set (T := incPairs inc). set (Z0 := repeat zeroIncSet (n * n)).
  assert (HL : length Z0 = length T)
    by (unfold Z0, T; rewrite repeat_length, length_incPairs; reflexivity).
  rewrite <- (prefix_0 T Z0).
  rewrite (fold_seq_prefix (prefix T Z0) _ 0 n n).
  - replace (0 + n * n) with (length T) by (unfold T; rewrite length_incPairs; lia).
    apply prefix_all. exact HL.
  - intros x Hx. simpl.
    rewrite (fold_seq_prefix (prefix T Z0) _ (x * n) 1 n).
    + f_equal. lia.
    + intros y Hy. replace (x * n + y * 1) with (x * n + y) by lia.
      unfold n. rewrite <- (nth_incPairs inc x y Hx Hy). fold n.
      rewrite upd_prefix by (auto; unfold T; rewrite length_incPairs; nia).
      f_equal. lia.
Qed.

Lemma newIncToSet_triples inc : newIncToSet inc = incTriples inc.
Proof.
  unfold newIncToSet. set (n := length inc).
  set (T := incTriples inc). set (Z0 := repeat zeroIncToSet (n * n * n)).
  assert (HL : length Z0 = length T)
    by (unfold Z0, T; rewrite repeat_length, length_incTriples; reflexivity).
  rewrite <- (prefix_0 T Z0).
  rewrite (fold_seq_prefix (prefix T Z0) _ 0 (n * n) n).
  - replace (0 + n * (n * n)) with (length T) by (unfold T; rewrite length_incTriples; lia).
    apply prefix_all. exact HL.
  - intros i Hi. simpl.
    rewrite (fold_seq_prefix (prefix T Z0) _ (i * (n * n)) n n).
    + f_equal. lia.
    + intros x Hx.
      rewrite (fold_seq_prefix (prefix T Z0) _ (i * (n * n) + x * n) 1 n).
      * f_equal. lia.
      * intros y Hy.
        replace (i * (n * n) + x * n + y * 1) with (i * n * n + x * n + y) by lia.
        unfold n. rewrite <- (nth_incTriples inc i x y Hi Hx Hy). fold n.
        rewrite upd_prefix by (auto; unfold T; rewrite length_incTriples; nia).
        f_equal. lia.
Qed.

(** C8: [newIncSet] returns the [n^2] pairs and [newIncToSet] the [n^3]
    triples over the [n] input values in lexicographic order: the pair
    [(inc[x], inc[y])] at index [x*n+y], the triple
    [(inc[i], inc[x], inc[y])] at index [i*n*n+x*n+y]. Both results are the
    fixed lists [incPairs inc] and [incTriples inc], so two calls on the same
    input give the same sequence. *)
Theorem incSet_enumeration (inc : list Z) :
  let n := length inc in
  newIncSet inc = incPairs inc /\
  length (newIncSet inc) = n * n /\
  (forall x y, x < n -> y < n ->
     nth_error (newIncSet inc) (x * n + y) = Some (mkIncSet (nth x inc 0%Z) (nth y inc 0%Z))) /\
  newIncToSet inc = incTriples inc /\
  length (newIncToSet inc) = n * n * n /\
  (forall i x y, i < n -> x < n -> y < n ->
     nth_error (newIncToSet inc) (i * n * n + x * n + y)
     = Some (mkIncToSet (nth i inc 0%Z) (nth x inc 0%Z) (nth y inc 0%Z))).
Proof.
  intro n. rewrite newIncSet_pairs, newIncToSet_triples.
  split; [reflexivity|]. split; [apply length_incPairs|]. split.
  { intros x y Hx Hy. rewrite (nth_error_nth' _ zeroIncSet).
    - f_equal. apply nth_incPairs; assumption.
    - rewrite length_incPairs. unfold n in *. nia. }
  split; [reflexivity|]. split; [apply length_incTriples|].
  intros i x y Hi Hx Hy. rewrite (nth_error_nth' _ zeroIncToSet).
  - f_equal. apply nth_incTriples; assumption.
  - rewrite length_incTriples. unfold n in *. nia.
Qed.

End IncSetProofs.

(** * The reference model of DlasrTest *)
Module MatrixFacts.
Import DlasrTestModel ListFacts MatrixDefs.
Open Scope nat_scope.

Lemma qsum_ext (f g : nat -> Qc) n :
  (forall l, l < n -> f l = g l) -> qsum f n = qsum g n.
Proof.
  induction n as [|n IH]; intros H; simpl; [reflexivity|].
  rewrite IH by (intros; apply H; lia). rewrite H by lia. reflexivity.
Qed.

Lemma qsum_zero n : qsum (fun _ => 0%Qc) n = 0%Qc.
Proof. induction n as [|n IH]; simpl; [reflexivity|]. rewrite IH. ring. Qed.

Lemma qsum_mul_l c f n : (c * qsum f n)%Qc = qsum (fun l => c * f l)%Qc n.
Proof. induction n as [|n IH]; simpl; [ring|]. rewrite <- IH. ring. Qed.

Lemma qsum_mul_r c f n : (qsum f n * c)%Qc = qsum (fun l => f l * c)%Qc n.
Proof. induction n as [|n IH]; simpl; [ring|]. rewrite <- IH. ring. Qed.

Lemma qsum_plus f g n : qsum (fun l => f l + g l)%Qc n = (qsum f n + qsum g n)%Qc.
Proof. induction n as [|n IH]; simpl; [ring|]. rewrite IH. ring. Qed.

Lemma qsum_swap (h : nat -> nat -> Qc) n m :
  qsum (fun a => qsum (fun b => h a b) m) n = qsum (fun b => qsum (fun a => h a b) n) m.
Proof.
  induction n as [|n IH]; simpl.
  - symmetry. apply qsum_zero.
  - rewrite IH. rewrite <- qsum_plus. reflexivity.
Qed.

Lemma qsum_delta_r f n j :
  j < n -> qsum (fun l => f l * (if Nat.eqb l j then 1 else 0))%Qc n = f j.
Proof.
  induction n as [|n IH]; intros Hj; [lia|]. simpl.
  destruct (Nat.eqb_spec n j) as [->|E].
  - rewrite (qsum_ext _ (fun _ => 0%Qc)).
    + rewrite qsum_zero. ring.
    + intros l Hl. destruct (Nat.eqb_spec l j); [lia|]. ring.
  - rewrite IH by lia. ring.
Qed.

Lemma qsum_delta_l g n i :
  i < n -> qsum (fun l => (if Nat.eqb i l then 1 else 0) * g l)%Qc n = g i.
Proof.
  intros Hi. rewrite <- (qsum_delta_r g n i Hi). apply qsum_ext. intros l _.
  rewrite Nat.eqb_sym. ring.
Qed.

Lemma idx_div (n i j : nat) : j < n -> (i * n + j) / n = i.
Proof. intro H. symmetry. apply (Nat.div_unique _ _ _ j); lia. Qed.

Lemma idx_mod (n i j : nat) : j < n -> (i * n + j) mod n = j.
Proof. intro H. symmetry. apply (Nat.mod_unique _ _ i); lia. Qed.

Lemma idx_inj (n i j i' j' : nat) :
  j < n -> j' < n -> i * n + j = i' * n + j' -> i = i' /\ j = j'.
Proof.
  intros H1 H2 E. split.
  - rewrite <- (idx_div n i j H1), <- (idx_div n i' j' H2). f_equal. exact E.
  - rewrite <- (idx_mod n i j H1), <- (idx_mod n i' j' H2). f_equal. exact E.
Qed.

Lemma nth_upd_eq {A} (l : list A) q v d : q < length l -> nth q (upd l q v) d = v.
Proof.
  intro H. apply nth_error_nth. apply nth_error_upd_eq. exact H.
Qed.

Lemma nth_upd_neq {A} (l : list A) q p v d : q <> p -> nth p (upd l q v) d = nth p l d.
Proof.
  intro H. destruct (Nat.lt_ge_cases p (length l)).
  - apply nth_error_nth. rewrite nth_error_upd_neq by exact H.
    apply nth_error_nth'. exact H0.
  - rewrite !nth_overflow; rewrite ?length_upd; auto.
Qed.

Lemma length_diag_loop d stride n : length (diag_loop d stride n) = length d.
Proof.
  unfold diag_loop. generalize d. induction (seq 0 n) as [|x l IH]; intros d'; simpl;
  [reflexivity|]. rewrite IH, length_upd. reflexivity.
Qed.

Lemma length_ident n : length (ident n) = n * n.
Proof. unfold ident. rewrite length_diag_loop, repeat_length. reflexivity. Qed.

Lemma diag_loop_prefix n k i j :
  k <= n -> i < n -> j < n ->
  nth (i * n + j) (fold_left (fun d x => upd d (x * n + x) 1%Qc) (seq 0 k) (repeat 0%Qc (n * n))) 0%Qc
  = if Nat.eqb i j && (i <? k) then 1%Qc else 0%Qc.
Proof.
  intros Hk Hi Hj. induction k as [|k IH].
  - simpl. rewrite andb_false_r. apply nth_repeat.
  - rewrite seq_S, fold_left_app. simpl.
    assert (Hlen : forall k, length (fold_left (fun d x => upd d (x * n + x) 1%Qc) (seq 0 k)
                   (repeat 0%Qc (n * n))) = n * n).
    { clear. intros k. rewrite <- (repeat_length 0%Qc (n * n)) at 2.
      generalize (repeat 0%Qc (n * n)). induction (seq 0 k) as [|x l IH];
      intros d; simpl; [reflexivity|]. rewrite IH, length_upd. reflexivity. }
    destruct (Nat.eq_dec (k * n + k) (i * n + j)) as [E|E].
    + destruct (idx_inj n k k i j) as [<- <-]; try lia.
      rewrite nth_upd_eq by (rewrite Hlen; nia).
      rewrite Nat.eqb_refl. replace (k <? S k) with true by (symmetry; apply Nat.ltb_lt; lia).
      reflexivity.
    + rewrite nth_upd_neq by exact E. rewrite IH by lia.
      destruct (Nat.eqb_spec i j) as [->|]; simpl; [|reflexivity].
      destruct (Nat.ltb_spec j k), (Nat.ltb_spec j (S k)); try reflexivity; try lia.
      exfalso. apply E. replace j with k by lia. reflexivity.
Qed.

Lemma ident_ent n i j : i < n -> j < n -> ent n (ident n) i j = if Nat.eqb i j then 1%Qc else 0%Qc.
Proof.
  intros Hi Hj. unfold ent, ident, diag_loop. rewrite diag_loop_prefix by lia.
  replace (i <? n) with true by (symmetry; apply Nat.ltb_lt; lia).
  rewrite andb_true_r. reflexivity.
Qed.

Lemma nth_map_seq {A} (f : nat -> A) N k d : k < N -> nth k (map f (seq 0 N)) d = f k.
Proof.
  intro H. rewrite (nth_indep _ d (f 0)) by (rewrite length_map, length_seq; exact H).
  rewrite map_nth, seq_nth by exact H. reflexivity.
Qed.

Lemma length_Gemm alpha A B beta C : length (Data (Gemm alpha A B beta C)) = length (Data C).
Proof. unfold Gemm, withData. cbn [Data]. rewrite length_map, length_seq. reflexivity. Qed.

Lemma length_mmul n X Y : length (mmul n X Y) = n * n.
Proof. unfold mmul. rewrite length_Gemm. cbn [Data]. apply repeat_length. Qed.

Lemma mmul_ent n X Y i j : i < n -> j < n ->
  ent n (mmul n X Y) i j = qsum (fun l => ent n X i l * ent n Y l j)%Qc n.
Proof.
  intros Hi Hj. unfold ent at 1, mmul, Gemm, withData. cbn [Data Rows Cols Stride].
  rewrite repeat_length, nth_map_seq by nia. cbv beta zeta.
  rewrite (idx_div n i j Hj), (idx_mod n i j Hj).
  replace (i <? n) with true by (symmetry; apply Nat.ltb_lt; lia).
  replace (j <? n) with true by (symmetry; apply Nat.ltb_lt; lia).
  cbn [andb]. unfold gemm_entry, ent. cbn [Data Rows Cols Stride]. ring.
Qed.

Lemma mat_ext n X Y : length X = n * n -> length Y = n * n ->
  (forall i j, i < n -> j < n -> ent n X i j = ent n Y i j) -> X = Y.
Proof.
  intros HX HY H. apply (nth_ext _ _ 0%Qc 0%Qc); [congruence|].
  intros k Hk. rewrite HX in Hk.
  assert (Hn : n <> 0) by (intro; subst; simpl in Hk; lia).
  pose proof (Nat.div_mod_eq k n) as E.
  pose proof (Nat.mod_upper_bound k n Hn) as Hm.
  assert (Hd : k / n < n) by (apply Nat.Div0.div_lt_upper_bound; lia).
  specialize (H (k / n) (k mod n) Hd Hm). unfold ent in H.
  replace (k / n * n + k mod n) with k in H by lia. exact H.
Qed.

Lemma mmul_ident_r n X : length X = n * n -> mmul n X (ident n) = X.
Proof.
  intro HX. apply (mat_ext n); [apply length_mmul|exact HX|]. intros i j Hi Hj.
  rewrite mmul_ent by assumption.
  rewrite (qsum_ext _ (fun l => ent n X i l * (if Nat.eqb l j then 1 else 0))%Qc).
  - apply (qsum_delta_r (fun l => ent n X i l)). exact Hj.
  - intros l Hl. rewrite ident_ent by assumption. reflexivity.
Qed.

Lemma mmul_ident_l n X : length X = n * n -> mmul n (ident n) X = X.
Proof.
  intro HX. apply (mat_ext n); [apply length_mmul|exact HX|]. intros i j Hi Hj.
  rewrite mmul_ent by assumption.
  rewrite (qsum_ext _ (fun l => (if Nat.eqb i l then 1 else 0) * ent n X l j)%Qc).
  - apply (qsum_delta_l (fun l => ent n X l j)). exact Hi.
  - intros l Hl. rewrite ident_ent by assumption. reflexivity.
Qed.

Lemma mmul_assoc n X Y Z : mmul n (mmul n X Y) Z = mmul n X (mmul n Y Z).
Proof.
  apply (mat_ext n); try apply length_mmul. intros i j Hi Hj.
  rewrite !mmul_ent by assumption.
  rewrite (qsum_ext _ (fun l => qsum (fun m => ent n X i m * ent n Y m l * ent n Z l j) n)%Qc).
  2:{ intros l Hl. rewrite mmul_ent by assumption. apply qsum_mul_r. }
  rewrite (qsum_ext (fun l => ent n X i l * ent n (mmul n Y Z) l j)%Qc
                    (fun m => qsum (fun l => ent n X i m * ent n Y m l * ent n Z l j) n)%Qc).
  2:{ intros m Hm. rewrite mmul_ent by assumption. rewrite qsum_mul_l.
      apply qsum_ext. intros l _. ring. }
  apply qsum_swap.
Qed.

Lemma map_const {A B} (c : B) (l : list A) : map (fun _ => c) l = repeat c (length l).
Proof. induction l; simpl; f_equal; auto. Qed.

Lemma go_copy_full {A} (dst src : list A) : length dst = length src -> go_copy dst src = src.
Proof.
  intro H. unfold go_copy. rewrite H, Nat.min_id, firstn_all.
  rewrite skipn_all2 by lia. apply app_nil_r.
Qed.

Lemma length_go_copy {A} (dst src : list A) : length (go_copy dst src) = length dst.
Proof.
  unfold go_copy. rewrite length_app, length_firstn, length_skipn. lia.
Qed.

Lemma length_set_pivot pivot n k ck sk d : length (set_pivot pivot n k ck sk d) = length d.
Proof. destruct pivot; simpl; rewrite !length_upd; reflexivity. Qed.

Lemma length_rotation pivot n c s k : length (rotation pivot n c s k) = n * n.
Proof. unfold rotation. rewrite length_set_pivot. apply length_ident. Qed.

(** With [beta = 0] and a full [n x n] window, [Gemm] stores the product. *)
Lemma Gemm_mmul n A B C :
  Stride A = n -> Cols A = n -> Stride B = n ->
  Rows C = n -> Cols C = n -> Stride C = n -> length (Data C) = n * n ->
  Data (Gemm 1 A B 0 C) = mmul n (Data A) (Data B).
Proof.
  intros HsA HcA HsB HrC HcC HsC HlC. unfold mmul, Gemm, withData. cbn [Data Rows Cols Stride].
  rewrite HlC, repeat_length, HrC, HcC, HsC. apply map_ext_in. intros idx Hin.
  apply in_seq in Hin.
  assert (Hn : n <> 0) by (intro; subst; simpl in Hin; lia).
  replace (idx / n <? n) with true
    by (symmetry; apply Nat.ltb_lt, Nat.Div0.div_lt_upper_bound; lia).
  replace (idx mod n <? n) with true by (symmetry; apply Nat.ltb_lt, Nat.mod_upper_bound; exact Hn).
  cbn [andb]. unfold gemm_entry. cbn [Data Rows Cols Stride]. rewrite HsA, HcA, HsB. ring.
Qed.

Lemma step_inv pivot direct n c s acc st k :
  loop_inv n acc st ->
  loop_inv n (if direct_eqb direct Forward then mmul n (rotation pivot n c s k) acc
              else mmul n acc (rotation pivot n c s k))
    (accumulate_step pivot direct n c s st k).
Proof.
  destruct st as [[p pk] ptmp].
  intros (Hrp & Hcp & Hsp & Hdp & Hrk & Hck & Hsk & Hct & Hst & Hdt & Hl).
  unfold accumulate_step. rewrite Hsp, Hdp.
  rewrite map_const, Hl.
  change (diag_loop (repeat 0%Qc (n * n)) n n) with (ident n).
  cbn [Data withData].
  change (set_pivot pivot n k (nth k c 0%Qc) (nth k s 0%Qc) (ident n))
    with (rotation pivot n c s k).
  destruct (direct_eqb direct Forward); cbn [Data withData Rows Cols Stride loop_inv].
  all: rewrite (Gemm_mmul n) by (cbn [Data withData Stride Cols Rows]; try rewrite Hdp; auto).
  all: cbn [Data withData]; rewrite ?Hdt.
  all: change (set_pivot pivot n k (nth k c 0%Qc) (nth k s 0%Qc) (diag_loop (repeat 0%Qc (n * n)) n n))
         with (rotation pivot n c s k).
  all: unfold Gemm; cbn [withData Rows Cols Stride].
  all: repeat split; auto; try apply length_mmul.
  all: rewrite go_copy_full; [reflexivity|rewrite ?Hdt, Hl; symmetry; apply length_mmul].
Qed.

Lemma fold_step_inv pivot direct n c s l acc st :
  loop_inv n acc st ->
  loop_inv n (fold_left (fun acc k => if direct_eqb direct Forward
                                     then mmul n (rotation pivot n c s k) acc
                                     else mmul n acc (rotation pivot n c s k)) l acc)
    (fold_left (accumulate_step pivot direct n c s) l st).
Proof.
  revert acc st. induction l as [|k l IH]; intros acc st H; simpl; [exact H|].
  apply IH. apply step_inv. exact H.
Qed.

Lemma reference_P_fold pivot direct n c s :
  Data (reference_P pivot direct n c s)
  = fold_left (fun acc k => if direct_eqb direct Forward
                           then mmul n (rotation pivot n c s k) acc
                           else mmul n acc (rotation pivot n c s k))
              (seq 0 (length s)) (ident n).
Proof.
  unfold reference_P.
  pose proof (fold_step_inv pivot direct n c s (seq 0 (length s)) (ident n)
    (mkGeneral n n n (diag_loop (repeat 0%Qc (n * n)) n n),
     mkGeneral n n n (repeat 0%Qc (n * n)),
     mkGeneral n n n (diag_loop (repeat 0%Qc (n * n)) n n))) as H.
  destruct (fold_left (accumulate_step pivot direct n c s) (seq 0 (length s)) _)
    as [[p pk] ptmp].
  destruct H as (_ & _ & _ & Hd & _).
  - cbn. repeat split; try reflexivity. apply length_ident.
  - exact Hd.
Qed.

Lemma mprod_cons n P Ps : length P = n * n -> mprod n (P :: Ps) = mmul n P (mprod n Ps).
Proof.
  intro HP. destruct Ps as [|Q Ps]; [|reflexivity].
  simpl. symmetry. apply mmul_ident_r. exact HP.
Qed.

Lemma mprod_fold_right n Ps :
  Forall (fun P => length P = n * n) Ps -> mprod n Ps = fold_right (mmul n) (ident n) Ps.
Proof.
  induction 1 as [|P Ps HP HPs IH]; [reflexivity|].
  rewrite mprod_cons by exact HP. simpl. rewrite IH. reflexivity.
Qed.

Lemma length_fold_right_mmul n Ps : length (fold_right (mmul n) (ident n) Ps) = n * n.
Proof. destruct Ps; simpl; [apply length_ident|apply length_mmul]. Qed.

Lemma fold_left_post n Ps acc :
  length acc = n * n ->
  fold_left (fun acc P => mmul n acc P) Ps acc = mmul n acc (fold_right (mmul n) (ident n) Ps).
Proof.
  revert acc. induction Ps as [|P Ps IH]; intros acc Hacc; simpl.
  - symmetry. apply mmul_ident_r. exact Hacc.
  - rewrite IH by apply length_mmul. apply mmul_assoc.
Qed.

Lemma fold_left_map_seq {A B} (f : A -> B -> A) (g : nat -> B) l a :
  fold_left (fun acc k => f acc (g k)) l a = fold_left f (map g l) a.
Proof. revert a. induction l; intros; simpl; auto. Qed.

Lemma Forall_rotation pivot n c s l :
  Forall (fun P => length P = n * n) (map (rotation pivot n c s) l).
Proof. apply Forall_forall. intros P HP. apply in_map_iff in HP. destruct HP as (k & <- & _).
  apply length_rotation. Qed.
End MatrixFacts.

Module DlasrProofs.
Import DlasrTestModel MatrixDefs MatrixFacts DlasrReading.

Lemma nth_repeat_zero N k : nth k (repeat 0%Qc N) 0%Qc = 0%Qc.
Proof.
  destruct (Nat.lt_ge_cases k N).
  - apply nth_repeat_lt. exact H.
  - apply nth_overflow. rewrite repeat_length. exact H.
Qed.

(** [Gemm] with a zero factor and [beta = 0] leaves the zero matrix [C]. *)
Lemma Gemm_zero_factor A B C N :
  ((forall k, nth k (Data A) 0%Qc = 0%Qc) \/ (forall k, nth k (Data B) 0%Qc = 0%Qc)) ->
  Data C = repeat 0%Qc N ->
  Data (Gemm 1 A B 0 C) = repeat 0%Qc N.
Proof.
  intros HAB HC. unfold Gemm, withData. cbn [Data]. rewrite HC, repeat_length.
  rewrite <- (length_seq N 0) at 2. rewrite <- map_const. apply map_ext. intros idx.
  destruct (_ && _).
  - unfold gemm_entry. rewrite (qsum_ext _ (fun _ => 0%Qc)).
    + rewrite qsum_zero, nth_repeat_zero. ring.
    + intros l _. destruct HAB as [H|H]; rewrite H; ring.
  - apply nth_repeat_zero.
Qed.

Lemma EqualApprox_zeros N t : EqualApprox (map Fin (repeat 0%Qc N)) (repeat fzero N) t = true.
Proof.
  unfold EqualApprox. rewrite length_map, !repeat_length, Nat.eqb_refl.
  induction N as [|N IH]; simpl; [reflexivity|].
  rewrite IH. reflexivity.
Qed.

Lemma finite_list_map_Fin l : finite_list (map Fin l) = Some l.
Proof. induction l as [|q l IH]; simpl; [reflexivity|]. rewrite IH. reflexivity. Qed.

(** Whatever an implementation that leaves [c] and [s] alone writes to [a],
    one trial reports no mismatch. *)
Lemma dlasr_trial_never_bad draw sincos g side pivot direct m n lda0 r :
  option_map fst (dlasr_trial draw sincos (keep_cs g) side pivot direct m n lda0 r) = Some false.
Proof.
  unfold dlasr_trial, keep_cs. cbv zeta.
  rewrite !go_copy_full by reflexivity.
  rewrite !finite_list_map_Fin. cbn [option_map fst].
  set (lda := if (lda0 =? 0)%nat then n else lda0).
  set (a := map (fun i => Fin (draw (r + i)%nat)) (seq 0 (m * lda))).
  assert (Ha : length a = (m * lda)%nat) by (unfold a; rewrite length_map, length_seq; reflexivity).
  rewrite (go_copy_full _ (repeat fzero (length a)))
    by (rewrite !length_go_copy, repeat_length; reflexivity).
  rewrite Ha. destruct (side_eqb side Left).
  all: rewrite Gemm_zero_factor with (N := (m * lda)%nat);
         [rewrite EqualApprox_zeros; reflexivity| |reflexivity].
  - right. intro k. apply nth_repeat_zero.
  - left. intro k. apply nth_repeat_zero.
Qed.

(** C6: the accumulation loop of [DlasrTest] starts from the identity and,
    for the elementary rotation matrices [P_k = rotation pivot pSize c s k]
    (k = 0 .. K-1 with K = len(s)), yields [P_{K-1}*...*P_1*P_0] when
    [direct = Forward] and [P_0*P_1*...*P_{K-1}] when [direct = Backward];
    with no rotation at all it yields the identity. *)
Theorem reference_P_composition pivot pSize c s :
  Data (reference_P pivot Forward pSize c s)
    = mprod pSize (rev (map (rotation pivot pSize c s) (seq 0 (length s)))) /\
  Data (reference_P pivot Backward pSize c s)
    = mprod pSize (map (rotation pivot pSize c s) (seq 0 (length s))) /\
  (forall direct, Data (reference_P pivot direct pSize c []) = ident pSize).
Proof.
  split; [|split].
  - rewrite reference_P_fold. cbn [direct_eqb].
    rewrite (fold_left_map_seq (fun acc P => mmul pSize P acc) (rotation pivot pSize c s)).
    rewrite <- fold_left_rev_right.
    rewrite mprod_fold_right; [reflexivity|].
    apply Forall_rev, Forall_rotation.
  - rewrite reference_P_fold. cbn [direct_eqb].
    rewrite (fold_left_map_seq (fun acc P => mmul pSize acc P) (rotation pivot pSize c s)).
    rewrite fold_left_post by apply length_ident.
    rewrite mmul_ident_l by apply length_fold_right_mmul.
    rewrite mprod_fold_right; [reflexivity|]. apply Forall_rotation.
  - intro direct. rewrite reference_P_fold. reflexivity.
Qed.


Lemma DlasrTest_fold_nil draw sincos g cfgs r :
  exists r'', fold_left
    (fun (acc : option (list trial_config * nat)) cfg =>
       match acc with
       | None => None
       | Some (errs, r) =>
           let '(side, pivot, direct, (m, n, lda)) := cfg in
           match dlasr_trial draw sincos (keep_cs g) side pivot direct m n lda r with
           | Some (bad, r') => Some (if bad then errs ++ [cfg] else errs, r')
           | None => None
           end
       end)
    cfgs (Some ([], r)) = Some ([], r'').
Proof.
  revert r. induction cfgs as [|cfg cfgs IH]; intro r; [exists r; reflexivity|].
  cbn [fold_left]. destruct cfg as [[[side pivot] direct] [[m n] lda]].
  pose proof (dlasr_trial_never_bad draw sincos g side pivot direct m n lda r) as H.
  destruct (dlasr_trial draw sincos (keep_cs g) side pivot direct m n lda r) as [[bad r']|];
    [|discriminate H].
  cbn [option_map fst] in H. injection H as ->. apply IH.
Qed.

(** C1: [DlasrTest] zeroes [a] (copying the zero [aCopy] into it) before
    [impl.Dlasr] runs and again after it, and multiplies [P] by the zero
    [aMat]; so its comparison is between zeros and it reports no mismatch
    for any implementation that leaves [c] and [s] alone, whatever it
    writes to [a]. The trial as described (run the implementation on the
    random [A], compare with [P*A]) does report one for an implementation
    that writes ones, [P = I] and [A = 0]. *)
Theorem DlasrTest_reports_nothing :
  (forall draw sincos g, DlasrTest draw sincos (keep_cs g) = Some []) /\
  dlasr_trial_as_described (fun _ => 0%Qc) (fun _ => (0%Qc, 1%Qc)) ones_impl
    Left Variable_ Forward 5 5 0 0 = true.
Proof.
  split.
  - intros draw sincos g. unfold DlasrTest.
    destruct (DlasrTest_fold_nil draw sincos g dlasr_configs 0) as [r' ->]. reflexivity.
  - vm_compute. reflexivity.
Qed.

End DlasrProofs.

Module RandSliceProofs.
Import AsmTest IncSetProofs.
Open Scope Z_scope.



End RandSliceProofs.

Module StridedCheckProofs.
Import AsmTest.
Open Scope Z_scope.

Lemma nonStridedWrite_loop_eq (x : list F) : forall a (i0 : nat),
  0 < a ->
  nonStridedWrite_loop x a (Z.of_nat i0) =
  Some (existsb (fun iv => negb (Nat.eqb (fst iv mod Z.to_nat a) 0) && negb (isNaN (snd iv)))
                (combine (seq i0 (length x)) x)).
Proof.
  induction x as [|v x IH]; intros a i0 Ha; [reflexivity|].
  cbn [nonStridedWrite_loop length seq combine existsb fst snd].
  replace (a =? 0) with false by (symmetry; apply Z.eqb_neq; lia).
  assert (Hr : (Z.rem (Z.of_nat i0) a =? 0) = Nat.eqb (i0 mod Z.to_nat a) 0).
  { rewrite Z.rem_mod_nonneg by lia.
    rewrite <- (Z2Nat.id a) at 1 by lia. rewrite <- Nat2Z.inj_mod.
    destruct (Nat.eqb_spec (i0 mod Z.to_nat a) 0) as [E|E].
    - rewrite E. reflexivity.
    - apply Z.eqb_neq. lia. }
  rewrite Hr. destruct (negb _ && negb _); [reflexivity|].
  replace (Z.of_nat i0 + 1) with (Z.of_nat (S i0)) by lia. apply IH. exact Ha.
Qed.

(** [nonStridedWrite(x, inc)] reports [true] exactly when some element
    [x[i]] at an offset [i] that is not a multiple of [|inc|] is not NaN; with
    [|inc| = 1] it never reports a write; with [inc = 0] it panics (integer
    division by zero) on every non-empty [x]. *)
Theorem nonStridedWrite_spec (x : list F) (inc : Z) :
  (inc <> 0 ->
   nonStridedWrite x inc =
   Some (existsb (fun iv => negb (Nat.eqb (fst iv mod Z.to_nat (Z.abs inc)) 0)
                            && negb (isNaN (snd iv)))
                 (combine (seq 0 (length x)) x))) /\
  (Z.abs inc = 1 -> nonStridedWrite x inc = Some false) /\
  (inc = 0 -> x <> [] -> nonStridedWrite x inc = None).
Proof.
  assert (Hgen : inc <> 0 ->
   nonStridedWrite x inc =
   Some (existsb (fun iv => negb (Nat.eqb (fst iv mod Z.to_nat (Z.abs inc)) 0)
                            && negb (isNaN (snd iv)))
                 (combine (seq 0 (length x)) x))).
  { intro H. unfold nonStridedWrite. rewrite AsmTestProofs.absInc_abs.
    apply (nonStridedWrite_loop_eq x (Z.abs inc) 0). lia. }
  split; [exact Hgen|]. split.
  - intro H1. rewrite Hgen by lia. rewrite H1. f_equal. clear Hgen H1.
    change (Z.to_nat 1) with 1%nat. induction (combine (seq 0 (length x)) x) as [|iv l IH];
      [reflexivity|]. cbn [existsb]. rewrite Nat.mod_1_r, IH. reflexivity.
  - intros -> Hx. destruct x as [|v x]; [congruence|]. reflexivity.
Qed.

Lemma getZ_stride (x : list F) a (i : nat) :
  0 <= a -> getZ x (Z.of_nat i * a) = nth_error x (i * Z.to_nat a)%nat.
Proof.
  intro Ha. rewrite getZ_ok by lia. f_equal.
  rewrite Z2Nat.inj_mul, Nat2Z.id by lia. reflexivity.
Qed.

Lemma equalStrided_loop_eq (ref : list F) : forall x a (i0 : nat),
  0 <= a ->
  (forall i, (i < length ref)%nat -> ((i0 + i) * Z.to_nat a < length x)%nat) ->
  equalStrided_loop ref x a (Z.of_nat i0) =
  Some (forallb (fun iv => Same (nth (fst iv * Z.to_nat a) x NaN) (snd iv))
                (combine (seq i0 (length ref)) ref)).
Proof.
  induction ref as [|v ref IH]; intros x a i0 Ha H; [reflexivity|].
  cbn [equalStrided_loop length seq combine forallb fst snd].
  rewrite getZ_stride by exact Ha.
  specialize (H 0%nat) as H0. rewrite Nat.add_0_r in H0.
  rewrite (nth_error_nth' _ NaN) by (apply H0; simpl; lia).
  destruct (Same _ v); [|reflexivity].
  replace (Z.of_nat i0 + 1) with (Z.of_nat (S i0)) by lia.
  apply IH; [exact Ha|]. intros i Hi. replace (S i0 + i)%nat with (i0 + S i)%nat by lia.
  apply H. simpl. lia.
Qed.

Lemma equalStrided_loop_panic (ref : list F) : forall x a (i0 : nat),
  0 <= a ->
  (forall i, (i < length ref)%nat -> ((i0 + i) * Z.to_nat a < length x)%nat ->
     Same (nth ((i0 + i) * Z.to_nat a) x NaN) (nth i ref NaN) = true) ->
  (exists i, (i < length ref)%nat /\ (length x <= (i0 + i) * Z.to_nat a)%nat) ->
  equalStrided_loop ref x a (Z.of_nat i0) = None.
Proof.
  induction ref as [|v ref IH]; intros x a i0 Ha Hm Hout.
  { destruct Hout as (i & Hi & _). simpl in Hi. lia. }
  cbn [equalStrided_loop]. rewrite getZ_stride by exact Ha.
  destruct (Nat.lt_ge_cases (i0 * Z.to_nat a) (length x)) as [Hin|Hge].
  - rewrite (nth_error_nth' _ NaN) by exact Hin.
    specialize (Hm 0%nat) as H0. rewrite Nat.add_0_r in H0. simpl in H0.
    rewrite H0 by (simpl; lia || exact Hin).
    replace (Z.of_nat i0 + 1) with (Z.of_nat (S i0)) by lia.
    apply IH; [exact Ha| |].
    + intros i Hi Hl. replace (S i0 + i)%nat with (i0 + S i)%nat in * by lia.
      apply (Hm (S i)); [simpl; lia|exact Hl].
    + destruct Hout as ([|i] & Hi & Hl).
      * rewrite Nat.add_0_r in Hl. lia.
      * exists i. split; [simpl in Hi; lia|]. replace (S i0 + i)%nat with (i0 + S i)%nat by lia.
        exact Hl.
  - rewrite (proj2 (nth_error_None x _)) by exact Hge. reflexivity.
Qed.

(** [equalStrided(ref, x, inc)] with [A = |inc|]: when every offset
    [i*A] for [i < len(ref)] is inside [x], it returns whether [x[i*A]] is
    [scalar.Same] as [ref[i]] for every [i]; when some offset is outside [x]
    and no in-range offset mismatches, it panics rather than returning
    [false]. *)
Theorem equalStrided_spec (ref x : list F) (inc : Z) :
  let A := Z.to_nat (Z.abs inc) in
  ((forall i, (i < length ref)%nat -> (i * A < length x)%nat) ->
   equalStrided ref x inc =
   Some (forallb (fun iv => Same (nth (fst iv * A) x NaN) (snd iv))
                 (combine (seq 0 (length ref)) ref))) /\
  ((forall i, (i < length ref)%nat -> (i * A < length x)%nat ->
      Same (nth (i * A) x NaN) (nth i ref NaN) = true) ->
   (exists i, (i < length ref)%nat /\ (length x <= i * A)%nat) ->
   equalStrided ref x inc = None).
Proof.
  intro A. unfold equalStrided. rewrite AsmTestProofs.absInc_abs. split.
  - intro H. apply (equalStrided_loop_eq ref x (Z.abs inc) 0); [lia|exact H].
  - intros Hm Hout. apply (equalStrided_loop_panic ref x (Z.abs inc) 0); [lia|exact Hm|exact Hout].
Qed.
End StridedCheckProofs.

Module GuardIncProofs.
Import AsmTest GuardedVectorProofs.
Open Scope Z_scope.

Lemma guardInc_loop_spec (vec : list F) : forall g gd a (i0 : nat),
  0 <= gd -> 0 < a ->
  (forall i, (i < length vec)%nat -> gd + Z.of_nat (i0 + i) * a < Zlen g) ->
  exists W, guardInc_loop g gd a vec (Z.of_nat i0) = Some W /\
    length W = length g /\
    (forall i, (i < length vec)%nat ->
       nth_error W (Z.to_nat gd + (i0 + i) * Z.to_nat a)%nat = nth_error vec i) /\
    (forall j, (forall i, (i < length vec)%nat -> j <> (Z.to_nat gd + (i0 + i) * Z.to_nat a)%nat) ->
       nth_error W j = nth_error g j).
Proof.
  induction vec as [|d rest IH]; intros g gd a i0 Hg Ha Hv.
  - exists g. simpl. repeat split; auto. intros i Hi; simpl in Hi; lia.
  - cbn [guardInc_loop].
    assert (Hhi : gd + Z.of_nat i0 * a < Zlen g)
      by (specialize (Hv 0%nat); rewrite Nat.add_0_r in Hv; apply Hv; simpl; lia).
    rewrite setZ_ok by nia.
    rewrite to_nat_lin by lia.
    set (p0 := (Z.to_nat gd + i0 * Z.to_nat a)%nat).
    replace (Z.of_nat i0 + 1) with (Z.of_nat (S i0)) by lia.
    destruct (IH (upd g p0 d) gd a (S i0)) as [W [Hrun [Hlen [Hin Hout]]]];
      [lia|lia| |].
    { intros i Hi. rewrite Zlen_upd. replace (S i0 + i)%nat with (i0 + S i)%nat by lia.
      apply Hv. simpl. lia. }
    exists W. split; [exact Hrun|]. split; [rewrite Hlen, length_upd; reflexivity|]. split.
    + intros [|i] Hi.
      * rewrite Nat.add_0_r. fold p0. rewrite Hout.
        -- apply nth_error_upd_eq. unfold Zlen in Hhi.
           assert (Z.of_nat p0 < Z.of_nat (length g)); [|lia].
           unfold p0. rewrite Nat2Z.inj_add, Nat2Z.inj_mul, !Z2Nat.id by lia. lia.
        -- intros i' _. unfold p0. nia.
      * replace (i0 + S i)%nat with (S i0 + i)%nat by lia. apply Hin. simpl in Hi. lia.
    + intros j Hj. rewrite Hout.
      * apply nth_error_upd_neq. specialize (Hj O). unfold p0. rewrite Nat.add_0_r in Hj.
        intro E. apply Hj; [simpl; lia|auto].
      * intros i Hi. replace (S i0 + i)%nat with (i0 + S i)%nat by lia. apply Hj. simpl. lia.
Qed.

Lemma guardIncVector_layout_gen (vec : list F) (gdVal : F) (inc gdLen : Z)
    (Hinc : 1 <= Z.abs inc) (Hg : 0 <= gdLen) :
  let A := Z.to_nat (Z.abs inc) in
  let G := Z.to_nat gdLen in
  exists g, guardIncVector vec gdVal inc gdLen = Some g /\
    length g = (length vec * A + 2 * G)%nat /\
    (forall i, (i < length vec)%nat -> nth_error g (G + i * A)%nat = nth_error vec i) /\
    (forall j, (j < length g)%nat -> (forall i, (i < length vec)%nat -> j <> (G + i * A)%nat) ->
       nth_error g j = Some gdVal).
Proof.
  intros A G. unfold guardIncVector, make. rewrite AsmTestProofs.absInc_abs.
  destruct (Z.ltb_spec (Zlen vec * Z.abs inc + gdLen * 2) 0) as [Hneg|_];
    [unfold Zlen in Hneg; nia|].
  set (g0 := map (fun _ => gdVal) (repeat fzero (Z.to_nat (Zlen vec * Z.abs inc + gdLen * 2)))).
  assert (Hl0 : length g0 = (length vec * A + 2 * G)%nat).
  { unfold g0, A, G, Zlen. rewrite length_map, repeat_length.
    apply Nat2Z.inj. rewrite Z2Nat.id by nia. rewrite Nat2Z.inj_add, !Nat2Z.inj_mul, !Z2Nat.id by lia.
    lia. }
  destruct (guardInc_loop_spec vec g0 gdLen (Z.abs inc) 0) as [W [Hrun [Hlen [Hin Hout]]]];
    [lia|lia| |].
  { intros i Hi. unfold Zlen. rewrite Hl0. unfold A, G.
    rewrite !Nat2Z.inj_add, !Nat2Z.inj_mul, !Z2Nat.id by lia. nia. }
  exists W. split; [exact Hrun|]. split; [rewrite Hlen; exact Hl0|]. split.
  - intros i Hi. apply Hin. exact Hi.
  - intros j Hj Hnot. rewrite Hout by (intros i Hi; apply Hnot; exact Hi).
    unfold g0. rewrite nth_error_map, nth_error_repeat; [reflexivity|].
    rewrite Hlen, Hl0 in Hj. unfold A, G in *. unfold Zlen. nia.
Qed.

(** The layout of [guardIncVector(vec, gdVal, inc, gdLen)] for [|inc| >= 1]
    and [gdLen >= 0]: a slice of length [len(vec)*|inc| + 2*gdLen] holding
    [vec[i]] at offset [gdLen + i*|inc|] and [gdVal] everywhere else. *)
Theorem guardIncVector_layout (vec : list F) (gdVal : F) (inc gdLen : Z)
    (Hinc : 1 <= Z.abs inc) (Hg : 0 <= gdLen) :
  let A := Z.to_nat (Z.abs inc) in
  let G := Z.to_nat gdLen in
  exists g, guardIncVector vec gdVal inc gdLen = Some g /\
    length g = (length vec * A + 2 * G)%nat /\
    (forall i, (i < length vec)%nat -> nth_error g (G + i * A)%nat = nth_error vec i) /\
    (forall j, (j < length g)%nat -> (forall i, (i < length vec)%nat -> j <> (G + i * A)%nat) ->
       nth_error g j = Some gdVal).
Proof. exact (guardIncVector_layout_gen vec gdVal inc gdLen Hinc Hg). Qed.

Lemma guardIncVector_layout_witness :
  1 <= Z.abs (-2) /\ 0 <= 1 /\
  exists g, guardIncVector [f1; f2] NaN (-2) 1 = Some g /\ length g = 6%nat /\
    nth_error g 3%nat = Some f2 /\ nth_error g 2%nat = Some NaN.
Proof.
  split; [lia|]. split; [lia|].
  destruct (guardIncVector_layout [f1; f2] NaN (-2) 1) as (g & Hr & Hl & Hin & Hout); [lia|lia|].
  change (length g = 6%nat) in Hl.
  exists g. split; [exact Hr|]. split; [exact Hl|]. split.
  - apply (Hin 1%nat). simpl. lia.
  - apply Hout; [rewrite Hl; lia|]. intros i Hi. simpl in Hi. simpl. lia.
Defined.

Lemma checkValidIncGuard_loop_clean vec gdVal inc gdLen srcLn (xs : list F) (i0 : nat) :
  (forall j, (j < length xs)%nat ->
     checkOffset vec gdVal inc gdLen srcLn (Z.of_nat (i0 + j)) (nth j xs NaN) = Some []) ->
  checkValidIncGuard_loop vec gdVal inc gdLen srcLn xs (Z.of_nat i0) = Some [].
Proof.
  revert i0. induction xs as [|y l IHl]; intros i1 H; [reflexivity|].
  cbn [checkValidIncGuard_loop].
  specialize (H 0%nat) as H0. rewrite Nat.add_0_r in H0. cbn [nth] in H0.
  rewrite H0 by (simpl; lia).
  replace (Z.of_nat i1 + 1) with (Z.of_nat (S i1)) by lia.
  rewrite (IHl (S i1)); [reflexivity|].
  intros j Hj. replace (S i1 + j)%nat with (i1 + S j)%nat by lia. apply (H (S j)). simpl. lia.
Qed.

Lemma checkValidIncGuard_loop_single vec gdVal inc gdLen srcLn (xs : list F) :
  forall (i0 k : nat) ms,
  (k < length xs)%nat ->
  (forall j, (j < length xs)%nat -> j <> k ->
     checkOffset vec gdVal inc gdLen srcLn (Z.of_nat (i0 + j)) (nth j xs NaN) = Some []) ->
  checkOffset vec gdVal inc gdLen srcLn (Z.of_nat (i0 + k)) (nth k xs NaN) = Some ms ->
  checkValidIncGuard_loop vec gdVal inc gdLen srcLn xs (Z.of_nat i0) = Some ms.
Proof.
  induction xs as [|x xs IH]; intros i0 k ms Hk Hother Hk'; [simpl in Hk; lia|].
  cbn [checkValidIncGuard_loop].
  replace (Z.of_nat i0 + 1) with (Z.of_nat (S i0)) by lia.
  destruct k as [|k].
  - rewrite Nat.add_0_r in Hk'. cbn [nth] in Hk'. rewrite Hk'.
    rewrite (checkValidIncGuard_loop_clean _ _ _ _ _ xs (S i0)); [rewrite app_nil_r; reflexivity|].
    intros j Hj. replace (S i0 + j)%nat with (i0 + S j)%nat by lia.
    apply (Hother (S j)); simpl; lia.
  - specialize (Hother 0%nat) as H0. rewrite Nat.add_0_r in H0. cbn [nth] in H0.
    rewrite H0 by (simpl; lia). cbn [app].
    rewrite (IH (S i0) k ms); [reflexivity|simpl in Hk; lia| |].
    + intros j Hj Hne. replace (S i0 + j)%nat with (i0 + S j)%nat by lia.
      apply (Hother (S j)); simpl; lia.
    + replace (S i0 + k)%nat with (i0 + S k)%nat by lia. exact Hk'.
Qed.

(** An offset holding an element of the source vector is never reported. *)
Lemma checkOffset_data vec gdVal inc gdLen srcLn (i : nat) v :
  inc <> 0 -> Z.of_nat i < Zlen vec ->
  checkOffset vec gdVal inc gdLen srcLn (gdLen + Z.of_nat i * Z.abs inc) v = Some [].
Proof.
  intros Hinc Hi. unfold checkOffset.
  destruct (Same v gdVal); [reflexivity|].
  replace (inc =? 0) with false by (symmetry; apply Z.eqb_neq; exact Hinc).
  replace (gdLen + Z.of_nat i * Z.abs inc - gdLen) with (Z.of_nat i * Z.abs inc) by lia.
  destruct (Z.abs_spec inc) as [[_ ->]|[_ ->]].
  - rewrite Z.rem_mul, Z.quot_mul by exact Hinc. cbn.
    replace (Z.of_nat i <? Zlen vec) with true by (symmetry; apply Z.ltb_lt; exact Hi).
    reflexivity.
  - replace (Z.of_nat i * - inc) with ((- Z.of_nat i) * inc) by ring.
    rewrite Z.rem_mul, Z.quot_mul by exact Hinc. cbn.
    replace (- Z.of_nat i <? Zlen vec) with true by (symmetry; apply Z.ltb_lt; lia).
    reflexivity.
Qed.

Lemma data_or_not (G A n j : nat) :
  (exists i, (i < n)%nat /\ j = (G + i * A)%nat) \/ (forall i, (i < n)%nat -> j <> (G + i * A)%nat).
Proof.
  induction n as [|n IH].
  - right. intros i Hi. lia.
  - destruct IH as [(i & Hi & E)|H].
    + left. exists i. split; [lia|exact E].
    + destruct (Nat.eq_dec j (G + n * A)) as [E|E].
      * left. exists n. split; [lia|exact E].
      * right. intros i Hi. destruct (Nat.eq_dec i n) as [->|Hne]; [exact E|]. apply H. lia.
Qed.

(** Every offset of an untouched [guardIncVector] result passes the switch
    of [checkValidIncGuard], whatever [vec'] it is measured against, as
    long as [vec'] is at least as long as [vec]. *)
Lemma guardInc_offsets_clean vec gdVal inc gdLen g vec' srcLn j :
  1 <= Z.abs inc -> 0 <= gdLen ->
  length g = (length vec * Z.to_nat (Z.abs inc) + 2 * Z.to_nat gdLen)%nat ->
  (forall i, (i < length vec)%nat ->
     nth_error g (Z.to_nat gdLen + i * Z.to_nat (Z.abs inc))%nat = nth_error vec i) ->
  (forall j, (j < length g)%nat ->
     (forall i, (i < length vec)%nat -> j <> (Z.to_nat gdLen + i * Z.to_nat (Z.abs inc))%nat) ->
     nth_error g j = Some gdVal) ->
  (length vec <= length vec')%nat -> (j < length g)%nat ->
  checkOffset vec' gdVal inc gdLen srcLn (Z.of_nat j) (nth j g NaN) = Some [].
Proof.
  intros Hinc Hg Hlen Hin Hout Hv Hj.
  destruct (data_or_not (Z.to_nat gdLen) (Z.to_nat (Z.abs inc)) (length vec) j)
    as [(i & Hi & ->)|Hnot].
  - replace (Z.of_nat (Z.to_nat gdLen + i * Z.to_nat (Z.abs inc)))
      with (gdLen + Z.of_nat i * Z.abs inc) by lia.
    apply checkOffset_data; [lia|unfold Zlen; lia].
  - rewrite (nth_error_nth _ _ NaN (Hout j Hj Hnot)). apply AsmTestProofs.checkOffset_sentinel.
Qed.

(** [checkValidIncGuard] reports nothing on an untouched
    [guardIncVector(vec, gdVal, inc, gdLen)] result, for every [|inc| >= 1]
    and [gdLen >= 0]. *)
Theorem guardIncVector_checkValid_clean (vec : list F) (gdVal : F) (inc gdLen : Z)
    (Hinc : 1 <= Z.abs inc) (Hg : 0 <= gdLen) :
  exists g, guardIncVector vec gdVal inc gdLen = Some g /\
    checkValidIncGuard g gdVal inc gdLen = Some [].
Proof.
  destruct (guardIncVector_layout_gen vec gdVal inc gdLen Hinc Hg) as (g & Hrun & Hlen & Hin & Hout).
  exists g. split; [exact Hrun|]. unfold checkValidIncGuard.
  apply (checkValidIncGuard_loop_clean _ _ _ _ _ g 0). intros j Hj.
  eapply guardInc_offsets_clean; eauto. rewrite Hlen. nia.
Qed.

Lemma guardIncVector_checkValid_clean_witness :
  1 <= Z.abs 2 /\ 0 <= 2 /\
  exists g, guardIncVector [f1; f2; f3] f5 2 2 = Some g /\ checkValidIncGuard g f5 2 2 = Some [].
Proof.
  split; [lia|]. split; [lia|]. apply guardIncVector_checkValid_clean; lia.
Defined.

(** A single overwrite of an untouched [guardIncVector] result, at an
    offset [p] with [(p - gdLen) % inc != 0], by a value that is not
    [scalar.Same] as [gdVal], gives exactly one report: a front-guard
    violation at [p] when [p < gdLen], a back-guard violation at
    [p - gdLen - srcLn] when [p > gdLen + srcLn], an internal-guard violation
    at [p - gdLen] otherwise, where [srcLn = len(vec)*|inc|]. *)
Theorem checkValidIncGuard_single_write (vec : list F) (gdVal : F) (inc gdLen : Z)
    (g : list F) (p : nat) (w : F)
    (Hinc : 1 <= Z.abs inc) (Hg : 0 <= gdLen)
    (Hrun : guardIncVector vec gdVal inc gdLen = Some g)
    (Hp : (p < length g)%nat) (Hoff : Z.rem (Z.of_nat p - gdLen) inc <> 0)
    (Hw : Same w gdVal = false) :
  let srcLn := Zlen vec * Z.abs inc in
  exists ctx, checkValidIncGuard (upd g p w) gdVal inc gdLen =
    Some ((if Z.of_nat p <? gdLen then FrontGuard (Z.of_nat p) ctx
           else if gdLen + srcLn <? Z.of_nat p then BackGuard (Z.of_nat p - gdLen - srcLn) ctx
           else InternalGuard (Z.of_nat p - gdLen) ctx) :: nil).
Proof.
  intro srcLn.
  destruct (guardIncVector_layout_gen vec gdVal inc gdLen Hinc Hg) as (g' & Hrun' & Hlen & Hin & Hout).
  rewrite Hrun in Hrun'. injection Hrun' as <-.
  assert (Hsrc : Zlen (upd g p w) - 2 * gdLen = srcLn)
    by (unfold srcLn, Zlen; rewrite length_upd, Hlen; nia).
  unfold checkValidIncGuard. rewrite Hsrc.
  assert (Hat : checkOffset (upd g p w) gdVal inc gdLen srcLn (Z.of_nat (0 + p))
                  (nth p (upd g p w) NaN) =
    (if Z.of_nat p <? gdLen then
       let? c := sliceZ (upd g p w) 0 gdLen in Some (FrontGuard (Z.of_nat p) c :: nil)
     else if gdLen + srcLn <? Z.of_nat p then
       let? c := sliceZ (upd g p w) (gdLen + srcLn) (Zlen (upd g p w)) in
       Some (BackGuard (Z.of_nat p - gdLen - srcLn) c :: nil)
     else
       let? c := sliceZ (upd g p w) gdLen (gdLen + srcLn) in
       Some (InternalGuard (Z.of_nat p - gdLen) c :: nil))).
  { rewrite MatrixFacts.nth_upd_eq by exact Hp. unfold checkOffset. rewrite Hw.
    replace (inc =? 0) with false by (symmetry; apply Z.eqb_neq; lia).
    replace (Z.rem (Z.of_nat (0 + p) - gdLen) inc =? 0) with false
      by (symmetry; apply Z.eqb_neq; exact Hoff).
    reflexivity. }
  assert (HL : Zlen (upd g p w) = srcLn + 2 * gdLen) by lia.
  assert (Hsl : forall lo hi, 0 <= lo <= hi -> hi <= Zlen (upd g p w) ->
            sliceZ (upd g p w) lo hi
            = Some (firstn (Z.to_nat (hi - lo)) (skipn (Z.to_nat lo) (upd g p w)))).
  { intros lo hi H1 H2. unfold sliceZ.
    destruct (Z.leb_spec 0 lo), (Z.leb_spec lo hi), (Z.leb_spec hi (Zlen (upd g p w)));
      try lia; reflexivity. }
  assert (Hsrc0 : 0 <= srcLn) by (unfold srcLn, Zlen; lia).
  destruct (Z.ltb_spec (Z.of_nat p) gdLen); [|destruct (Z.ltb_spec (gdLen + srcLn) (Z.of_nat p))];
    rewrite Hsl in Hat by lia; eexists;
    (apply (checkValidIncGuard_loop_single _ _ _ _ _ _ 0 p);
     [rewrite length_upd; exact Hp| |exact Hat]);
    intros j Hj Hne; rewrite length_upd in Hj; rewrite MatrixFacts.nth_upd_neq by lia;
    (eapply guardInc_offsets_clean; eauto; rewrite length_upd, Hlen; nia).
Qed.

Lemma checkValidIncGuard_single_write_witness :
  1 <= Z.abs 2 /\ 0 <= 2 /\
  guardIncVector [f1; f2] NaN 2 2 = Some [NaN; NaN; f1; NaN; f2; NaN; NaN; NaN] /\
  (3 < length [NaN; NaN; f1; NaN; f2; NaN; NaN; NaN])%nat /\ Z.rem (Z.of_nat 3 - 2) 2 <> 0 /\
  Same f5 NaN = false /\
  exists ctx, checkValidIncGuard (upd [NaN; NaN; f1; NaN; f2; NaN; NaN; NaN] 3 f5) NaN 2 2
              = Some (InternalGuard 1 ctx :: nil).
Proof.
  split; [lia|]. split; [lia|]. split; [reflexivity|]. split; [simpl; lia|].
  split; [vm_compute; discriminate|]. split; [reflexivity|].
  destruct (checkValidIncGuard_single_write [f1; f2] NaN 2 2 [NaN; NaN; f1; NaN; f2; NaN; NaN; NaN] 3 f5)
    as [ctx H]; [lia|lia|reflexivity|simpl; lia|vm_compute; discriminate|reflexivity|].
  exists ctx. exact H.
Defined.
(** The [Ignore input values] case of [checkValidIncGuard] tests
    [(i-gdLen)%inc == 0 && (i-gdLen)/inc < len(vec)] against the length of
    the guarded slice, not of the source vector: an overwrite of an untouched
    [guardIncVector] result at any offset [p] with [(p - gdLen) % inc == 0],
    guard cells included (such as [p = gdLen + len(vec)*|inc|], the first
    back-guard cell, or [p = gdLen - |inc|] in the front guard), is never
    reported, whatever value is written. *)
Theorem checkValidIncGuard_misses_aligned_write (vec : list F) (gdVal : F) (inc gdLen : Z)
    (g : list F) (p : nat) (w : F)
    (Hinc : 1 <= Z.abs inc) (Hg : 0 <= gdLen)
    (Hrun : guardIncVector vec gdVal inc gdLen = Some g)
    (Hp : (p < length g)%nat) (Hal : Z.rem (Z.of_nat p - gdLen) inc = 0) :
  checkValidIncGuard (upd g p w) gdVal inc gdLen = Some [].
Proof.
  destruct (guardIncVector_layout_gen vec gdVal inc gdLen Hinc Hg) as (g' & Hrun' & Hlen & Hin & Hout).
  rewrite Hrun in Hrun'. injection Hrun' as <-.
  unfold checkValidIncGuard.
  apply (checkValidIncGuard_loop_clean _ _ _ _ _ _ 0). intros j Hj.
  rewrite length_upd in Hj. cbn [Nat.add].
  destruct (Nat.eq_dec j p) as [->|Hne].
  - rewrite MatrixFacts.nth_upd_eq by exact Hp. unfold checkOffset.
    destruct (Same w gdVal); [reflexivity|].
    replace (inc =? 0) with false by (symmetry; apply Z.eqb_neq; lia).
    rewrite Hal. cbn [Z.eqb andb].
    assert (Hq : Z.abs (Z.quot (Z.of_nat p - gdLen) inc) <= Z.abs (Z.of_nat p - gdLen)).
    { rewrite <- Z.quot_abs by lia.
      rewrite <- (Z.quot_1_r (Z.abs (Z.of_nat p - gdLen))) at 2.
      apply Z.quot_le_compat_l; lia. }
    replace (Z.quot (Z.of_nat p - gdLen) inc <? Zlen (upd g p w)) with true; [reflexivity|].
    symmetry. apply Z.ltb_lt. unfold Zlen in *. rewrite length_upd, Hlen.
    rewrite Hlen in Hp. nia.
  - rewrite MatrixFacts.nth_upd_neq by lia.
    eapply guardInc_offsets_clean; eauto. rewrite length_upd, Hlen. nia.
Qed.

Lemma checkValidIncGuard_misses_aligned_write_witness :
  1 <= Z.abs 2 /\ 0 <= 2 /\
  guardIncVector [f1; f2] NaN 2 2 = Some [NaN; NaN; f1; NaN; f2; NaN; NaN; NaN] /\
  (6 < length [NaN; NaN; f1; NaN; f2; NaN; NaN; NaN])%nat /\ Z.rem (Z.of_nat 6 - 2) 2 = 0 /\
  checkValidIncGuard (upd [NaN; NaN; f1; NaN; f2; NaN; NaN; NaN] 6 f5) NaN 2 2 = Some [].
Proof.
  split; [lia|]. split; [lia|]. split; [reflexivity|]. split; [simpl; lia|].
  split; [reflexivity|].
  apply (checkValidIncGuard_misses_aligned_write [f1; f2] NaN 2 2); [lia|lia|reflexivity|simpl; lia|reflexivity].
Defined.
End GuardIncProofs.

Module GuardVectorWriteProofs.
Import AsmTest GuardVectorProofs.
Open Scope Z_scope.

Lemma guardVector_loop_other k i g v g' J :
  guardVector_loop k i g v = Some g' ->
  (forall j, i <= j < i + Z.of_nat k -> Z.of_nat J <> j /\ Z.of_nat J <> Zlen g - 1 - j) ->
  nth_error g' J = nth_error g J.
Proof.
  revert i g. induction k as [|k IH]; intros i g H Hj; simpl in H.
  - congruence.
  - unfold setZ in H.
    destruct ((0 <=? i) && (i <? Zlen g)) eqn:E0; [|discriminate].
    apply andb_true_iff in E0. destruct E0 as [E01 E02]. apply Z.leb_le in E01. apply Z.ltb_lt in E02.
    set (g1 := upd g (Z.to_nat i) v) in H.
    destruct ((0 <=? Zlen g1 - 1 - i) && (Zlen g1 - 1 - i <? Zlen g1)) eqn:E; [|discriminate].
    apply andb_true_iff in E. destruct E as [E1 E2]. apply Z.leb_le in E1.
    rewrite (IH (i + 1) _ H).
    + unfold g1. destruct (Hj i) as [H1 H2]; [lia|].
      rewrite nth_error_upd_neq by (unfold Zlen in *; rewrite length_upd in *; lia).
      apply nth_error_upd_neq. lia.
    + intros j Hj'. unfold g1. rewrite !Zlen_upd. apply Hj. lia.
Qed.

Lemma isValidGuard_loop_eq k i vec v :
  0 <= i -> i + Z.of_nat k <= Zlen vec ->
  isValidGuard_loop k i vec v =
  Some (forallb (fun j => Same (nth j vec NaN) v && Same (nth (length vec - 1 - j) vec NaN) v)
                (seq (Z.to_nat i) k)).
Proof.
  revert i. induction k as [|k IH]; intros i Hi Hk; [reflexivity|].
  cbn [isValidGuard_loop seq forallb]. unfold Zlen in *.
  rewrite getZ_ok by lia. rewrite (nth_error_nth' _ NaN) by lia.
  destruct (Same (nth (Z.to_nat i) vec NaN) v); [|reflexivity]. cbn [negb andb].
  rewrite getZ_ok by lia. rewrite (nth_error_nth' _ NaN) by lia.
  replace (Z.to_nat (Z.of_nat (length vec) - 1 - i)) with (length vec - 1 - Z.to_nat i)%nat by lia.
  destruct (Same (nth (length vec - 1 - Z.to_nat i) vec NaN) v); [|reflexivity]. cbn [negb].
  rewrite IH by lia. replace (Z.to_nat (i + 1)) with (S (Z.to_nat i)) by lia. reflexivity.
Qed.

(** [guardVector(vec, gdVal, gdLn)] for [gdLn >= 0]: a slice of length
    [len(vec) + 2*gdLn] with [vec] at offsets [gdLn ..] and [gdVal] in the
    [gdLn] first and last cells; after one write of [w] at any offset [p],
    [isValidGuard] returns [scalar.Same(w, gdVal)] when [p] is a guard cell
    and [true] when [p] is inside the copy of [vec]. *)
Theorem guardVector_layout_single_write (vec : list F) (gdVal : F) (gdLn : Z) (H : 0 <= gdLn) :
  let G := Z.to_nat gdLn in
  exists g, guardVector vec gdVal gdLn = Some g /\
    length g = (length vec + 2 * G)%nat /\
    (forall i, (i < length vec)%nat -> nth_error g (G + i)%nat = nth_error vec i) /\
    (forall j, (j < G)%nat ->
       nth_error g j = Some gdVal /\ nth_error g (length g - 1 - j)%nat = Some gdVal) /\
    (forall p w, (p < length g)%nat ->
       isValidGuard (upd g p w) gdVal gdLn =
       Some (if (p <? G)%nat || (length g - G <=? p)%nat then Same w gdVal else true)).
Proof.
  intro G. unfold guardVector, make.
  destruct (Z.ltb_spec (Zlen vec + gdLn * 2) 0) as [Hneg|_].
  { unfold Zlen in Hneg. lia. }
  set (rep := repeat fzero (Z.to_nat (Zlen vec + gdLn * 2))).
  assert (Hrep : length rep = (length vec + 2 * G)%nat).
  { unfold rep. rewrite repeat_length. unfold G, Zlen. lia. }
  destruct (Z.leb_spec 0 gdLn) as [_|]; [|lia].
  destruct (Z.leb_spec gdLn (Zlen rep)) as [_|]; [|unfold Zlen in *; lia].
  simpl andb. cbv iota. fold G.
  set (g0 := firstn G rep ++ go_copy (skipn G rep) vec).
  assert (Hg0 : length g0 = length rep).
  { unfold g0, go_copy. rewrite !length_app, !length_firstn, !length_skipn. lia. }
  assert (Hmid : forall i, (i < length vec)%nat -> nth_error g0 (G + i) = nth_error vec i).
  { intros i Hi. unfold g0, go_copy.
    rewrite nth_error_app2 by (rewrite length_firstn; lia).
    rewrite length_firstn. replace (G + i - Nat.min G (length rep))%nat with i by lia.
    rewrite length_skipn. replace (Nat.min (length rep - G) (length vec)) with (length vec) by lia.
    rewrite nth_error_app1 by (rewrite length_firstn; lia).
    rewrite firstn_all. reflexivity. }
  destruct (guardVector_loop_spec G 0 g0 gdVal) as [g [Hrun [Hlen Hall]]];
    [lia|unfold Zlen, G in *; lia|].
  exists g. split; [exact Hrun|].
  assert (HL : length g = (length vec + 2 * G)%nat) by lia.
  split; [exact HL|]. split; [|split].
  - intros i Hi. rewrite (guardVector_loop_other _ _ _ _ _ _ Hrun); [apply Hmid; exact Hi|].
    intros j Hj. unfold Zlen, G in *. lia.
  - intros j Hj. destruct (Hall (Z.of_nat j)) as [H1 H2]; [lia|].
    rewrite Nat2Z.id in H1. split; [exact H1|].
    replace (length g - 1 - j)%nat with (Z.to_nat (Zlen g0 - 1 - Z.of_nat j))
      by (unfold Zlen; lia). exact H2.
  - intros p w Hp. unfold isValidGuard.
    rewrite GuardVectorWriteProofs.isValidGuard_loop_eq by (try rewrite Zlen_upd; unfold Zlen, G in *; lia).
    f_equal. rewrite length_upd. fold G.
    assert (Hguard : forall j, (j < G)%nat ->
              nth j g NaN = gdVal /\ nth (length g - 1 - j) g NaN = gdVal).
    { intros j Hj. destruct (Hall (Z.of_nat j)) as [H1 H2]; [lia|].
      rewrite Nat2Z.id in H1. split; [apply nth_error_nth; exact H1|].
      apply nth_error_nth.
      replace (length g - 1 - j)%nat with (Z.to_nat (Zlen g0 - 1 - Z.of_nat j))
        by (unfold Zlen; lia). exact H2. }
    assert (Hcell : forall j, (j < G)%nat ->
              Same (nth j (upd g p w) NaN) gdVal
              && Same (nth (length g - 1 - j) (upd g p w) NaN) gdVal
              = (if (Nat.eqb j p || Nat.eqb (length g - 1 - j) p) then Same w gdVal else true)).
    { intros j Hj. destruct (Hguard j Hj) as [Ha Hb].
      destruct (Nat.eqb_spec j p) as [Ejp|Hjp];
        destruct (Nat.eqb_spec (length g - 1 - j) p) as [Ejq|Hjq]; cbn [orb]; try lia.
      - rewrite <- Ejp at 1. rewrite MatrixFacts.nth_upd_eq by lia.
        rewrite MatrixFacts.nth_upd_neq by lia. rewrite Hb, Same_refl, andb_true_r. reflexivity.
      - rewrite MatrixFacts.nth_upd_neq by lia. rewrite <- Ejq at 1.
        rewrite MatrixFacts.nth_upd_eq by lia. rewrite Ha, Same_refl. reflexivity.
      - rewrite !MatrixFacts.nth_upd_neq by lia. rewrite Ha, Hb, Same_refl. reflexivity. }
    destruct ((p <? G)%nat || (length g - G <=? p)%nat) eqn:Ein.
    + destruct (Same w gdVal) eqn:Ew.
      * apply forallb_forall. intros j Hj. apply in_seq in Hj. rewrite Hcell by lia.
        destruct (Nat.eqb j p), (Nat.eqb (length g - 1 - j) p); reflexivity.
      * destruct (forallb _ _) eqn:Ef; [|reflexivity]. exfalso.
        rewrite forallb_forall in Ef.
        set (j := if (p <? G)%nat then p else (length g - 1 - p)%nat).
        assert (Hj : (j < G)%nat /\ (Nat.eqb j p || Nat.eqb (length g - 1 - j) p) = true).
        { unfold j. apply orb_true_iff in Ein.
          destruct (Nat.ltb_spec p G).
          - split; [lia|]. rewrite Nat.eqb_refl. reflexivity.
          - destruct Ein as [Ein|Ein]; [discriminate|apply Nat.leb_le in Ein].
            split; [lia|]. apply orb_true_iff. right. apply Nat.eqb_eq. lia. }
        destruct Hj as [Hj Hjp].
        specialize (Ef j). rewrite Hcell, Hjp in Ef by exact Hj. cbn in Ef.
        discriminate Ef. apply in_seq. lia.
    + apply forallb_forall. intros j Hj. apply in_seq in Hj. rewrite Hcell by lia.
      apply orb_false_iff in Ein. destruct Ein as [E1 E2].
      apply Nat.ltb_ge in E1. apply Nat.leb_gt in E2.
      destruct (Nat.eqb_spec j p); [lia|]. destruct (Nat.eqb_spec (length g - 1 - j) p); [lia|].
      reflexivity.
Qed.

Lemma guardVector_layout_single_write_witness :
  0 <= 1 /\ exists g, guardVector [f1; f2] NaN 1 = Some g /\
    isValidGuard (upd g 0 f5) NaN 1 = Some false /\ isValidGuard (upd g 1 f5) NaN 1 = Some true.
Proof.
  split; [lia|].
  destruct (guardVector_layout_single_write [f1; f2] NaN 1) as (g & Hr & Hl & _ & _ & Hw); [lia|].
  exists g. split; [exact Hr|].
  split; rewrite Hw by (rewrite Hl; simpl; lia); rewrite Hl; reflexivity.
Defined.
End GuardVectorWriteProofs.

Module SameApproxProofs.
Import AsmTest.
Open Scope Z_scope.

(** [sameApprox(a, b, tol)] is NaN-aware: two NaNs are always close, a NaN
    is never close to a value that is not NaN (whatever [tol]), and two
    finite values whose distance is at most a finite [tol] are close. *)
Theorem sameApprox_nan_and_tolerance :
  (forall tol, sameApprox NaN NaN tol = true) /\
  (forall b tol, b <> NaN -> sameApprox NaN b tol = false /\ sameApprox b NaN tol = false) /\
  (forall a b t, (Qcabs (a - b) <= t)%Qc -> sameApprox (Fin a) (Fin b) (Fin t) = true).
Proof.
  split; [reflexivity|]. split.
  - intros b tol Hb. destruct b; try congruence; destruct tol; split; reflexivity.
  - intros a b t H. unfold sameApprox, EqualWithinAbsOrRel, EqualWithinAbs.
    cbn [fsub fabs fle]. unfold qleb.
    replace (Qle_bool (this (Qcabs (a - b))) (this t)) with true
      by (symmetry; apply Qle_bool_iff; exact H).
    rewrite !orb_true_r. reflexivity.
Qed.
End SameApproxProofs.

Module OrthProofs.
Import DlasrTestModel MatrixDefs MatrixFacts.
Open Scope nat_scope.

Lemma qsum_prod f g n :
  (qsum f n * qsum g n)%Qc = qsum (fun a => qsum (fun b => f a * g b) n)%Qc n.
Proof.
  rewrite qsum_mul_r. apply qsum_ext. intros a _. apply qsum_mul_l.
Qed.

Lemma rows_orth_mmul n X Y : rows_orth n X -> rows_orth n Y -> rows_orth n (mmul n X Y).
Proof.
  intros HX HY i j Hi Hj.
  rewrite (qsum_ext _ (fun l => qsum (fun a => qsum (fun b =>
             ent n X i a * ent n X j b * (ent n Y a l * ent n Y b l)) n) n)%Qc).
  2:{ intros l Hl. rewrite !mmul_ent by assumption. rewrite qsum_prod.
      apply qsum_ext. intros a _. apply qsum_ext. intros b _. ring. }
  rewrite qsum_swap.
  rewrite (qsum_ext _ (fun a => qsum (fun b =>
             ent n X i a * ent n X j b * (if Nat.eqb a b then 1 else 0)) n)%Qc).
  2:{ intros a Ha. rewrite qsum_swap. apply qsum_ext. intros b Hb.
      rewrite <- qsum_mul_l, HY by assumption. reflexivity. }
  rewrite (qsum_ext _ (fun a => ent n X i a * ent n X j a)%Qc).
  - apply HX; assumption.
  - intros a Ha. rewrite (qsum_ext _ (fun b => (ent n X i a * ent n X j b) * (if Nat.eqb b a then 1 else 0))%Qc).
    + apply (qsum_delta_r (fun b => ent n X i a * ent n X j b)%Qc). exact Ha.
    + intros b _. rewrite Nat.eqb_sym. reflexivity.
Qed.

Lemma cols_orth_mmul n X Y : cols_orth n X -> cols_orth n Y -> cols_orth n (mmul n X Y).
Proof.
  intros HX HY i j Hi Hj.
  rewrite (qsum_ext _ (fun l => qsum (fun a => qsum (fun b =>
             ent n Y a i * ent n Y b j * (ent n X l a * ent n X l b)) n) n)%Qc).
  2:{ intros l Hl. rewrite !mmul_ent by assumption. rewrite qsum_prod.
      apply qsum_ext. intros a _. apply qsum_ext. intros b _. ring. }
  rewrite qsum_swap.
  rewrite (qsum_ext _ (fun a => qsum (fun b =>
             ent n Y a i * ent n Y b j * (if Nat.eqb a b then 1 else 0)) n)%Qc).
  2:{ intros a Ha. rewrite qsum_swap. apply qsum_ext. intros b Hb.
      rewrite <- qsum_mul_l, HX by assumption. reflexivity. }
  rewrite (qsum_ext _ (fun a => ent n Y a i * ent n Y a j)%Qc).
  - apply HY; assumption.
  - intros a Ha. rewrite (qsum_ext _ (fun b => (ent n Y a i * ent n Y b j) * (if Nat.eqb b a then 1 else 0))%Qc).
    + apply (qsum_delta_r (fun b => ent n Y a i * ent n Y b j)%Qc). exact Ha.
    + intros b _. rewrite Nat.eqb_sym. reflexivity.
Qed.

Lemma ident_orth n : rows_orth n (ident n) /\ cols_orth n (ident n).
Proof.
  split; intros i j Hi Hj.
  - rewrite (qsum_ext _ (fun l => (if Nat.eqb i l then 1 else 0) * (if Nat.eqb j l then 1 else 0))%Qc)
      by (intros l Hl; rewrite !ident_ent by assumption; reflexivity).
    rewrite (qsum_delta_l (fun l => if Nat.eqb j l then 1 else 0)%Qc n i Hi).
    rewrite Nat.eqb_sym. reflexivity.
  - rewrite (qsum_ext _ (fun l => (if Nat.eqb i l then 1 else 0) * (if Nat.eqb l j then 1 else 0))%Qc).
    + apply (qsum_delta_l (fun l => if Nat.eqb l j then 1 else 0)%Qc n i Hi).
    + intros l Hl. rewrite !ident_ent by assumption. rewrite (Nat.eqb_sym l i). reflexivity.
Qed.

Lemma nth_upd_if {A} (l : list A) q v p d :
  q < length l -> nth p (upd l q v) d = if Nat.eqb p q then v else nth p l d.
Proof.
  intro Hq. destruct (Nat.eqb_spec p q) as [->|E].
  - apply nth_upd_eq. exact Hq.
  - apply nth_upd_neq. congruence.
Qed.

Lemma idx_eqb n i j x y : j < n -> y < n -> Nat.eqb (i * n + j) (x * n + y) = Nat.eqb i x && Nat.eqb j y.
Proof.
  intros Hj Hy. destruct (Nat.eqb_spec (i * n + j) (x * n + y)) as [E|E].
  - destruct (idx_inj n i j x y Hj Hy E) as [-> ->]. rewrite !Nat.eqb_refl. reflexivity.
  - destruct (Nat.eqb_spec i x), (Nat.eqb_spec j y); subst; try reflexivity; exfalso; apply E; reflexivity.
Qed.

(** The identity with the [2 x 2] block [[c s] [-s c]] in the plane [(a, b)]. *)
Lemma ent_plane n a b c s i j :
  a < n -> b < n -> a <> b -> i < n -> j < n ->
  ent n (upd (upd (upd (upd (ident n) (a * n + a) c) (a * n + b) s) (b * n + a) (- s)) (b * n + b) c) i j
  = (if Nat.eqb i a then (if Nat.eqb j a then c else if Nat.eqb j b then s else 0)
     else if Nat.eqb i b then (if Nat.eqb j a then - s else if Nat.eqb j b then c else 0)
     else if Nat.eqb i j then 1 else 0)%Qc.
Proof.
  intros Ha Hb Hab Hi Hj. unfold ent.
  assert (Hl : forall q, q < n -> forall r, r < n -> r * n + q < n * n) by (intros; nia).
  rewrite !nth_upd_if by (rewrite ?length_upd, length_ident; apply Hl; assumption).
  rewrite !idx_eqb by assumption.
  change (nth (i * n + j) (ident n) 0%Qc) with (ent n (ident n) i j).
  rewrite ident_ent by assumption.
  destruct (Nat.eqb_spec i a), (Nat.eqb_spec j a), (Nat.eqb_spec i b), (Nat.eqb_spec j b);
    subst; cbn [andb]; try reflexivity; try lia.
  all: repeat match goal with |- context [Nat.eqb ?x ?y] => destruct (Nat.eqb_spec x y) end;
       subst; try reflexivity; lia.
Qed.
Lemma qsum_decomp n a b i (A B C : Qc) (g : nat -> Qc) :
  a < n -> b < n -> i < n ->
  qsum (fun l => (A * (if Nat.eqb a l then 1 else 0) + B * (if Nat.eqb b l then 1 else 0)
                  + C * (if Nat.eqb i l then 1 else 0)) * g l)%Qc n
  = (A * g a + B * g b + C * g i)%Qc.
Proof.
  intros Ha Hb Hi.
  rewrite (qsum_ext _ (fun l => A * ((if Nat.eqb a l then 1 else 0) * g l)
                               + B * ((if Nat.eqb b l then 1 else 0) * g l)
                               + C * ((if Nat.eqb i l then 1 else 0) * g l))%Qc)
    by (intros; ring).
  rewrite !qsum_plus, <- !qsum_mul_l, !qsum_delta_l by assumption. reflexivity.
Qed.

Ltac plane_cases c s Hcs :=
  repeat match goal with |- context [Nat.eqb ?x ?y] => destruct (Nat.eqb_spec x y) end;
  subst; try congruence;
  first [ring | (transitivity (c * c + s * s)%Qc; [ring|exact Hcs])].

(** A plane matrix with [c*c + s*s = 1] is orthogonal. *)
Lemma plane_orth n a b c s :
  a < n -> b < n -> a <> b -> (c * c + s * s = 1)%Qc ->
  rows_orth n (upd (upd (upd (upd (ident n) (a * n + a) c) (a * n + b) s) (b * n + a) (- s)) (b * n + b) c) /\
  cols_orth n (upd (upd (upd (upd (ident n) (a * n + a) c) (a * n + b) s) (b * n + a) (- s)) (b * n + b) c).
Proof.
  intros Ha Hb Hab Hcs.
  set (E := upd (upd (upd (upd (ident n) (a * n + a) c) (a * n + b) s) (b * n + a) (- s)) (b * n + b) c).
  split; intros i j Hi Hj.
  - rewrite (qsum_ext _ (fun l =>
        ((if Nat.eqb i a then c else if Nat.eqb i b then - s else 0) * (if Nat.eqb a l then 1 else 0)
         + (if Nat.eqb i a then s else if Nat.eqb i b then c else 0) * (if Nat.eqb b l then 1 else 0)
         + (if Nat.eqb i a then 0 else if Nat.eqb i b then 0 else 1) * (if Nat.eqb i l then 1 else 0))
        * ent n E j l)%Qc).
    2:{ intros l Hl. f_equal. unfold E. rewrite ent_plane by assumption.
        repeat match goal with |- context [Nat.eqb ?x ?y] => destruct (Nat.eqb_spec x y) end;
          subst; try congruence; ring. }
    rewrite qsum_decomp by assumption. unfold E. rewrite !ent_plane by assumption.
    plane_cases c s Hcs.
  - rewrite (qsum_ext _ (fun l =>
        ((if Nat.eqb i a then c else if Nat.eqb i b then s else 0) * (if Nat.eqb a l then 1 else 0)
         + (if Nat.eqb i a then - s else if Nat.eqb i b then c else 0) * (if Nat.eqb b l then 1 else 0)
         + (if Nat.eqb i a then 0 else if Nat.eqb i b then 0 else 1) * (if Nat.eqb i l then 1 else 0))
        * ent n E l j)%Qc).
    2:{ intros l Hl. f_equal. unfold E. rewrite ent_plane by assumption.
        repeat match goal with |- context [Nat.eqb ?x ?y] => destruct (Nat.eqb_spec x y) end;
          subst; try congruence; ring. }
    rewrite qsum_decomp by assumption. unfold E. rewrite !ent_plane by assumption.
    plane_cases c s Hcs.
Qed.
Lemma upd_upd {A} (l : list A) i (u v : A) : upd (upd l i u) i v = upd l i v.
Proof.
  revert i. induction l as [|h t IH]; intros [|i]; simpl; try reflexivity. rewrite IH. reflexivity.
Qed.

Lemma rotation_plane pivot n c s k :
  pivot <> Bottom -> k + 1 < n ->
  exists a b, a < n /\ b < n /\ a <> b /\
    rotation pivot n c s k =
    upd (upd (upd (upd (ident n) (a * n + a) (nth k c 0%Qc)) (a * n + b) (nth k s 0%Qc))
          (b * n + a) (- nth k s 0%Qc)) (b * n + b) (nth k c 0%Qc).
Proof.
  intros Hp Hk. unfold rotation, set_pivot. destruct pivot; [| |congruence].
  - exists k, (k + 1). do 3 (split; [lia|]).
    replace (k * n + k + 1) with (k * n + (k + 1)) by lia.
    replace ((k + 1) * n + k + 1) with ((k + 1) * n + (k + 1)) by lia. reflexivity.
  - exists 0, (k + 1). do 3 (split; [lia|]).
    replace (k + 1) with (0 * n + (k + 1)) at 1 by lia.
    replace ((k + 1) * n) with ((k + 1) * n + 0) at 1 by lia.
    replace ((k + 1) * n + k + 1) with ((k + 1) * n + (k + 1)) by lia. reflexivity.
Qed.

Lemma rotation_plane_Bottom n c s k :
  1 <= k < n ->
  rotation Bottom n c s k =
  upd (upd (upd (upd (ident n) ((n - 1 - k) * n + (n - 1 - k)) (nth k c 0%Qc))
        ((n - 1 - k) * n + (n - 1)) (nth k s 0%Qc))
        ((n - 1) * n + (n - 1 - k)) (- nth k s 0%Qc)) ((n - 1) * n + (n - 1)) (nth k c 0%Qc).
Proof.
  intros Hk. unfold rotation, set_pivot.
  replace ((n - 1 - k) * n + n - k - 1) with ((n - 1 - k) * n + (n - 1 - k)) by nia.
  replace ((n - 1 - k) * n + n - 1) with ((n - 1 - k) * n + (n - 1)) by nia.
  replace ((n - 1) * n + n - 1 - k) with ((n - 1) * n + (n - 1 - k)) by nia.
  replace ((n - 1) * n + n - 1) with ((n - 1) * n + (n - 1)) by nia. reflexivity.
Qed.

Lemma fold_orth pivot direct n c s l acc :
  (forall k, In k l -> rows_orth n (rotation pivot n c s k) /\ cols_orth n (rotation pivot n c s k)) ->
  rows_orth n acc /\ cols_orth n acc ->
  rows_orth n (fold_left (fun acc k => if direct_eqb direct Forward
                                      then mmul n (rotation pivot n c s k) acc
                                      else mmul n acc (rotation pivot n c s k)) l acc) /\
  cols_orth n (fold_left (fun acc k => if direct_eqb direct Forward
                                      then mmul n (rotation pivot n c s k) acc
                                      else mmul n acc (rotation pivot n c s k)) l acc).
Proof.
  revert acc. induction l as [|k l IH]; intros acc HR [Hr Hc]; [split; assumption|].
  cbn [fold_left]. apply IH; [intros k' Hk'; apply HR; right; exact Hk'|].
  destruct (HR k (or_introl eq_refl)) as [Rr Rc].
  destruct (direct_eqb direct Forward).
  - split; [apply rows_orth_mmul|apply cols_orth_mmul]; assumption.
  - split; [apply rows_orth_mmul|apply cols_orth_mmul]; assumption.
Qed.

(** For the [Variable] and [Top] pivots, each [P_k] built by [DlasrTest]
    is a plane rotation, so when [c[k]^2 + s[k]^2 = 1] for every [k] (and
    [len(s) < pSize], as in the test where [len(s) = pSize - 1]) the
    accumulated reference matrix [P] is orthogonal: [P*P^T = P^T*P = I],
    in either direction. *)
Theorem reference_P_orthogonal (pivot : Pivot) (direct : Direct) (pSize : nat) (c s : list Qc)
    (Hp : pivot <> Bottom) (Hlen : length s < pSize)
    (Hcs : forall k, k < length s -> (nth k c 0 * nth k c 0 + nth k s 0 * nth k s 0 = 1)%Qc) :
  rows_orth pSize (Data (reference_P pivot direct pSize c s)) /\
  cols_orth pSize (Data (reference_P pivot direct pSize c s)).
Proof.
  rewrite reference_P_fold. apply fold_orth; [|apply ident_orth].
  intros k Hk. apply in_seq in Hk.
  destruct (rotation_plane pivot pSize c s k Hp) as (a & b & Ha & Hb & Hab & ->); [lia|].
  apply plane_orth; try assumption. apply Hcs. lia.
Qed.

Lemma reference_P_orthogonal_witness :
  Variable_ <> Bottom /\ length (Q2Qc (4 # 5) :: 1%Qc :: nil) < 3 /\
  (forall k, k < length (Q2Qc (4 # 5) :: 1%Qc :: nil) ->
     (nth k (Q2Qc (3 # 5) :: 0%Qc :: nil) 0 * nth k (Q2Qc (3 # 5) :: 0%Qc :: nil) 0
      + nth k (Q2Qc (4 # 5) :: 1%Qc :: nil) 0 * nth k (Q2Qc (4 # 5) :: 1%Qc :: nil) 0 = 1)%Qc) /\
  rows_orth 3 (Data (reference_P Variable_ Forward 3 (Q2Qc (3 # 5) :: 0%Qc :: nil) (Q2Qc (4 # 5) :: 1%Qc :: nil))) /\
  cols_orth 3 (Data (reference_P Variable_ Forward 3 (Q2Qc (3 # 5) :: 0%Qc :: nil) (Q2Qc (4 # 5) :: 1%Qc :: nil))).
Proof.
  assert (Hcs : forall k, k < length (Q2Qc (4 # 5) :: 1%Qc :: nil) ->
     (nth k (Q2Qc (3 # 5) :: 0%Qc :: nil) 0 * nth k (Q2Qc (3 # 5) :: 0%Qc :: nil) 0
      + nth k (Q2Qc (4 # 5) :: 1%Qc :: nil) 0 * nth k (Q2Qc (4 # 5) :: 1%Qc :: nil) 0 = 1)%Qc).
  { intros k Hk. destruct k as [|[|k]]; [| |simpl in Hk; lia];
      apply Qc_is_canon; vm_compute; reflexivity. }
  split; [discriminate|]. split; [simpl; lia|]. split; [exact Hcs|].
  apply reference_P_orthogonal; [discriminate|simpl; lia|exact Hcs].
Defined.

Lemma ent_last_diag n c0 i l :
  1 <= n -> i < n -> l < n ->
  ent n (upd (ident n) (n * n - 1) c0) i l
  = if Nat.eqb i (n - 1) && Nat.eqb l (n - 1) then c0 else if Nat.eqb i l then 1%Qc else 0%Qc.
Proof.
  intros Hn Hi Hl. unfold ent.
  replace (n * n - 1) with ((n - 1) * n + (n - 1)) by nia.
  rewrite nth_upd_if by (rewrite length_ident; nia).
  rewrite idx_eqb by lia.
  change (nth (i * n + l) (ident n) 0%Qc) with (ent n (ident n) i l).
  rewrite ident_ent by assumption. reflexivity.
Qed.

(** For the [Bottom] pivot, iteration [k = 0] of [DlasrTest] writes all
    four entries of [P_0] to the same cell [(pSize-1, pSize-1)], so [P_0]
    is the identity with [c[0]] in its last diagonal entry: it is not
    orthogonal unless [c[0]^2 = 1], and with a single rotation
    ([len(s) = 1]) the reference [P] is this matrix in either direction,
    [s[0]] being ignored. Each [P_k] with [1 <= k < pSize] is the
    rotation in the plane [(pSize-1-k, pSize-1)]: the identity except for
    the block [[c[k] s[k]] [-s[k] c[k]]] on rows and columns
    [pSize-1-k] and [pSize-1]; it is orthogonal when
    [c[k]^2 + s[k]^2 = 1]. *)
Theorem reference_P_Bottom_degenerate (pSize : nat) (c s : list Qc) (Hn : 1 <= pSize) :
  rotation Bottom pSize c s 0 = upd (ident pSize) (pSize * pSize - 1) (nth 0 c 0%Qc) /\
  (rows_orth pSize (rotation Bottom pSize c s 0) -> (nth 0 c 0 * nth 0 c 0 = 1)%Qc) /\
  (length s = 1 -> forall direct,
     Data (reference_P Bottom direct pSize c s) = upd (ident pSize) (pSize * pSize - 1) (nth 0 c 0%Qc)) /\
  (forall k, 1 <= k < pSize ->
     (forall i j, i < pSize -> j < pSize ->
        ent pSize (rotation Bottom pSize c s k) i j =
        (if Nat.eqb i (pSize - 1 - k) then
           (if Nat.eqb j (pSize - 1 - k) then nth k c 0
            else if Nat.eqb j (pSize - 1) then nth k s 0 else 0)
         else if Nat.eqb i (pSize - 1) then
           (if Nat.eqb j (pSize - 1 - k) then - nth k s 0
            else if Nat.eqb j (pSize - 1) then nth k c 0 else 0)
         else if Nat.eqb i j then 1 else 0)%Qc) /\
     ((nth k c 0 * nth k c 0 + nth k s 0 * nth k s 0 = 1)%Qc ->
      rows_orth pSize (rotation Bottom pSize c s k) /\ cols_orth pSize (rotation Bottom pSize c s k))).
Proof.
  assert (H0 : rotation Bottom pSize c s 0 = upd (ident pSize) (pSize * pSize - 1) (nth 0 c 0%Qc)).
  { unfold rotation, set_pivot. rewrite !Nat.sub_0_r.
    replace ((pSize - 1) * pSize + pSize - 1) with (pSize * pSize - 1) by nia.
    rewrite !upd_upd. reflexivity. }
  split; [exact H0|]. split; [|split].
  - intros Hr. specialize (Hr (pSize - 1) (pSize - 1) ltac:(lia) ltac:(lia)).
    rewrite Nat.eqb_refl in Hr. rewrite <- Hr, H0.
    rewrite (qsum_ext _ (fun l => (if Nat.eqb (pSize - 1) l then 1 else 0) * (nth 0 c 0 * nth 0 c 0))%Qc).
    + symmetry. apply (qsum_delta_l (fun _ => nth 0 c 0 * nth 0 c 0)%Qc). lia.
    + intros l Hl. rewrite ent_last_diag by lia. rewrite Nat.eqb_refl. cbn [andb].
      rewrite (Nat.eqb_sym (pSize - 1) l).
      destruct (Nat.eqb_spec l (pSize - 1)); ring.
  - intros Hs direct. rewrite reference_P_fold, Hs. cbn [seq fold_left].
    rewrite <- H0. destruct (direct_eqb direct Forward).
    + apply mmul_ident_r. apply length_rotation.
    + apply mmul_ident_l. apply length_rotation.
  - intros k Hk. rewrite rotation_plane_Bottom by exact Hk. split.
    + intros i j Hi Hj. apply ent_plane; lia.
    + intros Hcs. apply plane_orth; try lia. exact Hcs.
Qed.

Lemma reference_P_Bottom_degenerate_witness :
  1 <= 2 /\
  Data (reference_P Bottom Forward 2 (Q2Qc (3 # 5) :: nil) (Q2Qc (4 # 5) :: nil))
    = upd (ident 2) 3 (Q2Qc (3 # 5)) /\
  ~ rows_orth 2 (rotation Bottom 2 (Q2Qc (3 # 5) :: nil) (Q2Qc (4 # 5) :: nil) 0).
Proof.
  destruct (reference_P_Bottom_degenerate 2 (Q2Qc (3 # 5) :: nil) (Q2Qc (4 # 5) :: nil))
    as (_ & P2 & P3 & _); [lia|].
  split; [lia|]. split; [exact (P3 eq_refl Forward)|].
  intros Hr. pose proof (P2 Hr) as E.
  apply (f_equal (fun q => Qnum (this q))) in E. vm_compute in E. discriminate E.
Defined.
End OrthProofs.
